(** * aws-manager: the credentials manager of [aws_tui.py]

    A shallow embedding of [AwsCredentialsManager] (src/aws_tui.py, lines
    18-81) together with the part of Python's [configparser] that the
    manager drives: the in-memory parser state, the line parser [_read],
    the serialiser [write], option lookup with [BasicInterpolation] and
    the mapping protocol of sections.

    Conventions of the model.
    - Text is a list of characters; a character is a code point below 256
      (Rocq's [ascii]).  [isspace] and [lower] follow Python's [str]
      methods on that range.
    - The manager works on two files: the credentials file [self.path] and
      its sibling [self.path.with_suffix(".bak")].  A file is absent
      ([None]) or holds text.  Reading applies Python's universal newlines;
      writing is the POSIX one (a newline is written as it is).
    - A call either returns or raises; a raised exception ends the modelled
      life of the manager instance, so only the files are kept with it. *)

From Stdlib Require Import List Ascii String Bool Arith Lia.
Import ListNotations.
Open Scope string_scope.
Open Scope nat_scope.
Open Scope list_scope.

(** ** Text *)

Definition str := list ascii.

Definition text (s : string) : str := list_ascii_of_string s.
Coercion text : string >-> str.

Definition str_eq_dec : forall a b : str, {a = b} + {a <> b} :=
  list_eq_dec ascii_dec.

Definition LF : ascii := "010"%char.
Definition CR : ascii := "013"%char.
Definition TAB : ascii := "009"%char.

(** [str.isspace] on one character: code points 9-13, 28-32, 133, 160. *)
Definition isspace (c : ascii) : bool :=
  let n := nat_of_ascii c in
  ((9 <=? n) && (n <=? 13)) || ((28 <=? n) && (n <=? 32))
  || (n =? 133) || (n =? 160).

(** [str.lower] on one character: A-Z and the Latin-1 capitals. *)
Definition lower_char (c : ascii) : ascii :=
  let n := nat_of_ascii c in
  if ((65 <=? n) && (n <=? 90))
     || ((192 <=? n) && (n <=? 222) && negb (n =? 215))
  then ascii_of_nat (n + 32) else c.

Definition lower (s : str) : str := map lower_char s.

Fixpoint lstrip (s : str) : str :=
  match s with
  | c :: t => if isspace c then lstrip t else s
  | [] => []
  end.

Definition rstrip (s : str) : str := rev (lstrip (rev s)).

Definition strip (s : str) : str := rstrip (lstrip s).

(** [s.startswith(c)] for a one-character prefix. *)
Definition startswith (c : ascii) (s : str) : bool :=
  match s with
  | x :: _ => Ascii.eqb x c
  | [] => false
  end.

(** [c in s]. *)
Definition contains (c : ascii) (s : str) : bool :=
  existsb (Ascii.eqb c) s.

(** ['\n'.join(lines)]. *)
Fixpoint join_lines (l : list str) : str :=
  match l with
  | [] => []
  | [x] => x
  | x :: t => x ++ LF :: join_lines t
  end.

(** [value.replace('\n', '\n\t')]. *)
Fixpoint indent_newlines (s : str) : str :=
  match s with
  | [] => []
  | c :: t => if Ascii.eqb c LF then LF :: TAB :: indent_newlines t
              else c :: indent_newlines t
  end.

(** Text-mode reading with [newline=None]: ["\r\n"] and a lone ["\r"]
    both become ["\n"]. *)
Fixpoint universal_newlines (s : str) : str :=
  match s with
  | [] => []
  | c :: t =>
      if Ascii.eqb c CR then
        match t with
        | c' :: t' => if Ascii.eqb c' LF then LF :: universal_newlines t'
                      else LF :: universal_newlines t
        | [] => [LF]
        end
      else c :: universal_newlines t
  end.

(** Iterating a text file: the lines in order, each without its
    terminating newline; text after the last newline is a line only when it
    is not empty. *)
Fixpoint iter_lines (s : str) : list str :=
  match s with
  | [] => []
  | c :: t =>
      if Ascii.eqb c LF then [] :: iter_lines t
      else match iter_lines t with
           | [] => [[c]]
           | l :: ls => (c :: l) :: ls
           end
  end.

(** The indentation of a line: the start of the first match of
    [NONSPACECRE], and 0 when the line has no such character. *)
Definition first_nonspace (line : str) : nat :=
  match lstrip line with
  | [] => 0
  | _ => List.length line - List.length (lstrip line)
  end.

(** ** Ordered dictionaries

    A Python [dict]: keys are unique, a new key goes last, assigning to an
    existing key keeps its place. *)

Definition odict (V : Type) := list (str * V).

Fixpoint od_get {V} (k : str) (d : odict V) : option V :=
  match d with
  | [] => None
  | (k', v) :: t => if str_eq_dec k k' then Some v else od_get k t
  end.

Fixpoint od_set {V} (k : str) (v : V) (d : odict V) : odict V :=
  match d with
  | [] => [(k, v)]
  | (k', v') :: t =>
      if str_eq_dec k k' then (k, v) :: t else (k', v') :: od_set k v t
  end.

Fixpoint od_del {V} (k : str) (d : odict V) : odict V :=
  match d with
  | [] => []
  | (k', v') :: t =>
      if str_eq_dec k k' then t else (k', v') :: od_del k t
  end.

Definition od_mem {V} (k : str) (d : odict V) : bool :=
  match od_get k d with Some _ => true | None => false end.

Definition od_keys {V} (d : odict V) : list str := map fst d.

(** [d.update(other)]. *)
Definition od_update {V} (d other : odict V) : odict V :=
  fold_left (fun acc kv => od_set (fst kv) (snd kv) acc) other d.

(** ** Exceptions and results *)

Inductive exn : Type :=
| MissingSectionHeaderError
| DuplicateSectionError
| DuplicateOptionError
| ParsingError
| NoSectionError
| NoOptionError
| InterpolationSyntaxError
| InterpolationMissingOptionError
| InterpolationDepthError
| ValueError
| KeyError
| AttributeError
| FileNotFoundError
| OSError.

Inductive result (A : Type) : Type :=
| Returned (a : A)
| Raised (e : exn).
Arguments Returned {A} a.
Arguments Raised {A} e.

Definition bind {A B} (r : result A) (k : A -> result B) : result B :=
  match r with
  | Returned a => k a
  | Raised e => Raised e
  end.

Notation "x <- r ;; k" := (bind r (fun x => k))
  (at level 61, r at next level, right associativity).

(** ** configparser.ConfigParser

    The parser as the manager builds it, [configparser.ConfigParser()]:
    delimiters [=] and [:], comment prefixes [#] and [;], no inline
    comments, [strict], [empty_lines_in_values], no valueless options,
    [default_section = "DEFAULT"], [BasicInterpolation] and
    [optionxform = str.lower]. *)

Module ConfigParser.

(** [_sections] and [_defaults].  While [_read] runs an option read from
    the file holds the list of its lines; [pval] is that union. *)
Record config_of (V : Type) : Type := mkConfig {
  _defaults : odict V;
  _sections : odict (odict V)
}.
Arguments mkConfig {V} _ _.
Arguments _defaults {V} _.
Arguments _sections {V} _.

Definition Config := config_of str.

Inductive pval : Type :=
| PStr (s : str)
| PList (l : list str).

Definition empty : Config := mkConfig [] [].

Definition default_section : str := "DEFAULT".

Definition MAX_INTERPOLATION_DEPTH : nat := 10.

Definition optionxform (optionstr : str) : str := lower optionstr.

Definition sections {V} (c : config_of V) : list str :=
  od_keys (_sections c).

Definition has_section {V} (c : config_of V) (section : str) : bool :=
  od_mem section (_sections c).

(** [key in parser]. *)
Definition __contains__ {V} (c : config_of V) (key : str) : bool :=
  if str_eq_dec key default_section then true else has_section c key.

Definition add_section (c : Config) (section : str) : result Config :=
  if str_eq_dec section default_section then Raised ValueError
  else if od_mem section (_sections c) then Raised DuplicateSectionError
  else Returned (mkConfig (_defaults c) (od_set section [] (_sections c))).

Definition remove_section (c : Config) (section : str) : Config :=
  if od_mem section (_sections c)
  then mkConfig (_defaults c) (od_del section (_sections c))
  else c.

(** [parser[key]]: the proxy of a section, here its name. *)
Definition __getitem__ (c : Config) (key : str) : result str :=
  if str_eq_dec key default_section then Returned key
  else if has_section c key then Returned key
  else Raised KeyError.

Definition options (c : Config) (section : str) : result (list str) :=
  match od_get section (_sections c) with
  | None => Raised NoSectionError
  | Some opts => Returned (od_keys (od_update opts (_defaults c)))
  end.

Definition has_option (c : Config) (section option : str) : bool :=
  match section with
  | [] => od_mem (optionxform option) (_defaults c)
  | _ =>
    if str_eq_dec section default_section
    then od_mem (optionxform option) (_defaults c)
    else match od_get section (_sections c) with
         | None => false
         | Some d => od_mem (optionxform option) d
                     || od_mem (optionxform option) (_defaults c)
         end
  end.

(** *** BasicInterpolation *)

(** [_KEYCRE.match(s)]: ["%("], a non-empty run of characters other than
    [")"], then [")s"]; the name and the text after the match. *)
Fixpoint span_name (s : str) : str * str :=
  match s with
  | [] => ([], [])
  | c :: t => if Ascii.eqb c ")" then ([], s)
              else let (a, b) := span_name t in (c :: a, b)
  end.

Definition KEYCRE_match (s : str) : option (str * str) :=
  match s with
  | c1 :: c2 :: t =>
      if Ascii.eqb c1 "%" && Ascii.eqb c2 "(" then
        match span_name t with
        | ((_ :: _) as name, c3 :: c4 :: rest) =>
            if Ascii.eqb c3 ")" && Ascii.eqb c4 "s"
            then Some (name, rest) else None
        | _ => None
        end
      else None
  | _ => None
  end.

(** [value.replace('%%', '')]. *)
Fixpoint remove_escaped (s : str) : str :=
  match s with
  | c1 :: t =>
      match t with
      | c2 :: t' =>
          if Ascii.eqb c1 "%" && Ascii.eqb c2 "%" then remove_escaped t'
          else c1 :: remove_escaped t
      | [] => [c1]
      end
  | [] => []
  end.

(** [_KEYCRE.sub('', s)]; [fuel] bounds the length of [s]. *)
Fixpoint KEYCRE_sub (fuel : nat) (s : str) : str :=
  match fuel with
  | 0 => []
  | S fuel' =>
      match s with
      | [] => []
      | c :: t =>
          match KEYCRE_match s with
          | Some (_, rest) => KEYCRE_sub fuel' rest
          | None => c :: KEYCRE_sub fuel' t
          end
      end
  end.

Definition before_set (value : str) : result str :=
  let tmp_value := remove_escaped value in
  let tmp_value := KEYCRE_sub (List.length tmp_value) tmp_value in
  if contains "%" tmp_value then Raised ValueError else Returned value.

(** [rest.find("%")]: the text before the first ["%"] and the text from
    it on. *)
Fixpoint break_percent (s : str) : str * str :=
  match s with
  | [] => ([], [])
  | c :: t => if Ascii.eqb c "%" then ([], s)
              else let (a, b) := break_percent t in (c :: a, b)
  end.

(** [_interpolate_some]; [depth_left] counts down from
    [MAX_INTERPOLATION_DEPTH], the inner [fuel] bounds the length of
    [rest].  The result is the text appended to [accum]. *)
Fixpoint _interpolate_some (depth_left : nat) (map : str -> option str)
  (rest : str) {struct depth_left} : result str :=
  match depth_left with
  | 0 => Raised InterpolationDepthError
  | S depth_left' =>
      (fix while (fuel : nat) (rest : str) {struct fuel} : result str :=
         match fuel with
         | 0 => Returned []
         | S fuel' =>
             match rest with
             | [] => Returned []
             | _ =>
                 let (before, rest) := break_percent rest in
                 match rest with
                 | [] => Returned before
                 | _ :: [] => Raised InterpolationSyntaxError
                 | _ :: c :: rest2 =>
                     if Ascii.eqb c "%" then
                       out <- while fuel' rest2 ;;
                       Returned (before ++ "%"%char :: out)
                     else if Ascii.eqb c "(" then
                       match KEYCRE_match rest with
                       | None => Raised InterpolationSyntaxError
                       | Some (name, rest3) =>
                           match map (optionxform name) with
                           | None => Raised InterpolationMissingOptionError
                           | Some v =>
                               piece <- (if contains "%" v
                                         then _interpolate_some
                                                depth_left' map v
                                         else Returned v) ;;
                               out <- while fuel' rest3 ;;
                               Returned (before ++ piece ++ out)
                           end
                       end
                     else Raised InterpolationSyntaxError
                 end
             end
         end) (S (List.length rest)) rest
  end.

(** [_unify_values(section, None)]: the section's own options first, then
    the defaults. *)
Definition _unify_values (c : Config) (section : str)
  : result (str -> option str) :=
  match od_get section (_sections c) with
  | Some sectiondict =>
      Returned (fun k => match od_get k sectiondict with
                         | Some v => Some v
                         | None => od_get k (_defaults c)
                         end)
  | None =>
      if str_eq_dec section default_section
      then Returned (fun k => od_get k (_defaults c))
      else Raised NoSectionError
  end.

Definition before_get (value : str) (d : str -> option str) : result str :=
  _interpolate_some MAX_INTERPOLATION_DEPTH d value.

(** [parser.get(section, option)]. *)
Definition get (c : Config) (section option : str) : result str :=
  d <- _unify_values c section ;;
  match d (optionxform option) with
  | None => Raised NoOptionError
  | Some value => before_get value d
  end.

(** [ConfigParser.set]: the syntax check of [before_set] on a non-empty
    value, then [RawConfigParser.set]. *)
Definition set (c : Config) (section option value : str) : result Config :=
  _ <- (match value with [] => Returned value | _ => before_set value end) ;;
  if match section with [] => true | _ => false end
     || (if str_eq_dec section default_section then true else false)
  then Returned (mkConfig (od_set (optionxform option) value (_defaults c))
                          (_sections c))
  else match od_get section (_sections c) with
       | None => Raised NoSectionError
       | Some sectdict =>
           Returned (mkConfig (_defaults c)
                       (od_set section
                          (od_set (optionxform option) value sectdict)
                          (_sections c)))
       end.

(** *** SectionProxy: the mapping protocol of one section *)

Definition _options (c : Config) (name : str) : result (list str) :=
  if str_eq_dec name default_section
  then Returned (od_keys (_defaults c))
  else options c name.

(** [proxy[key]]. *)
Definition proxy_getitem (c : Config) (name key : str) : result str :=
  if has_option c name key then get c name key else Raised KeyError.

(** [proxy[key] = value]. *)
Definition proxy_setitem (c : Config) (name key value : str)
  : result Config :=
  set c name key value.



(** *** write *)

Definition _write_section (section_name : str) (section_items : odict str)
  : str :=
  ("["%char :: section_name ++ ["]"%char; LF])
  ++ List.concat
       (map (fun kv => fst kv ++ text " = " ++ indent_newlines (snd kv)
                       ++ [LF])
            section_items)
  ++ [LF].

Definition write (c : Config) : str :=
  (match _defaults c with
   | [] => []
   | _ => _write_section default_section (_defaults c)
   end)
  ++ List.concat
       (map (fun s => _write_section (fst s) (snd s)) (_sections c)).

(** *** _read *)

(** [SECTCRE.match(value)] on a stripped line: ["["], at least one
    character, ["]"]; the header runs to the last ["]"] of the line. *)
Fixpoint upto_last (c : ascii) (s : str) : option str :=
  match s with
  | [] => None
  | x :: t =>
      match upto_last c t with
      | Some p => Some (x :: p)
      | None => if Ascii.eqb x c then Some [] else None
      end
  end.

Definition SECTCRE_match (value : str) : option str :=
  match value with
  | c :: t =>
      if Ascii.eqb c "[" then
        match upto_last "]" t with
        | Some ((_ :: _) as header) => Some header
        | _ => None
        end
      else None
  | [] => None
  end.

(** [OPTCRE.match(value)] on a stripped line: the option name is the text
    before the first [=] or [:] without its trailing whitespace, the value
    the text after it without its leading whitespace. *)
Definition is_delimiter (c : ascii) : bool :=
  Ascii.eqb c "=" || Ascii.eqb c ":".

Fixpoint split_delimiter (s : str) : option (str * str) :=
  match s with
  | [] => None
  | c :: t =>
      if is_delimiter c then Some ([], t)
      else match split_delimiter t with
           | Some (a, b) => Some (c :: a, b)
           | None => None
           end
  end.

Definition OPTCRE_match (value : str) : option (str * str) :=
  match split_delimiter value with
  | Some (a, b) => Some (rstrip a, lstrip b)
  | None => None
  end.

(** [cursect] is one of the parser's dictionaries: [_defaults] or the
    dictionary of a section. *)
Inductive sectref : Type :=
| InDefaults
| InSection (name : str).

Definition cursect_get {V} (p : config_of V) (r : sectref) (k : str)
  : option V :=
  match r with
  | InDefaults => od_get k (_defaults p)
  | InSection n =>
      match od_get n (_sections p) with
      | Some d => od_get k d
      | None => None
      end
  end.

Definition cursect_set {V} (p : config_of V) (r : sectref) (k : str)
  (v : V) : config_of V :=
  match r with
  | InDefaults => mkConfig (od_set k v (_defaults p)) (_sections p)
  | InSection n =>
      match od_get n (_sections p) with
      | Some d => mkConfig (_defaults p) (od_set n (od_set k v d) (_sections p))
      | None => p
      end
  end.

(** The local variables of [_read] and the parser it fills.
    [elements_added] holds section names and (section, option) pairs. *)
Record reader : Type := mkReader {
  parser : config_of pval;
  added_sections : list str;
  added_options : list (str * str);
  cursect : option sectref;
  sectname : str;
  optname : option str;
  indent_level : nat;
  e : bool
}.

Definition truthy (o : option str) : bool :=
  match o with
  | Some (_ :: _) => true
  | _ => false
  end.

Definition in_sections (x : str) (l : list str) : bool :=
  existsb (fun y => if str_eq_dec x y then true else false) l.

Definition in_options (x : str * str) (l : list (str * str)) : bool :=
  existsb (fun y => if str_eq_dec (fst x) (fst y)
                    then if str_eq_dec (snd x) (snd y) then true else false
                    else false) l.

(** [cursect[optname].append(value)]. *)
Definition append_value (st : reader) (value : str) : result reader :=
  match cursect st, optname st with
  | Some r, Some o =>
      match cursect_get (parser st) r o with
      | Some (PList l) =>
          Returned (mkReader (cursect_set (parser st) r o (PList (l ++ [value])))
                      (added_sections st) (added_options st) (cursect st)
                      (sectname st) (optname st) (indent_level st) (e st))
      | Some (PStr _) => Raised AttributeError
      | None => Raised KeyError
      end
  | _, _ => Raised AttributeError
  end.

Definition is_comment (line : str) : bool :=
  startswith "#" (strip line) || startswith ";" (strip line).

(** A section header line. *)
Definition read_header (st : reader) (cur_indent_level : nat)
  (header : str) : result reader :=
  if has_section (parser st) header then
    if in_sections header (added_sections st)
    then Raised DuplicateSectionError
    else Returned (mkReader (parser st) (header :: added_sections st)
                     (added_options st) (Some (InSection header)) header
                     None cur_indent_level (e st))
  else if str_eq_dec header default_section then
    Returned (mkReader (parser st) (added_sections st) (added_options st)
                (Some InDefaults) header None cur_indent_level (e st))
  else
    Returned (mkReader
                (mkConfig (_defaults (parser st))
                   (od_set header [] (_sections (parser st))))
                (header :: added_sections st) (added_options st)
                (Some (InSection header)) header None cur_indent_level
                (e st)).

(** An option line, or a line that is neither header nor option. *)
Definition read_option (st : reader) (cur_indent_level : nat)
  (r : sectref) (value : str) : result reader :=
  match OPTCRE_match value with
  | Some (name, optval) =>
      let e' := e st || match name with [] => true | _ => false end in
      let name := optionxform (rstrip name) in
      if in_options (sectname st, name) (added_options st)
      then Raised DuplicateOptionError
      else Returned (mkReader
                       (cursect_set (parser st) r name (PList [strip optval]))
                       (added_sections st)
                       ((sectname st, name) :: added_options st)
                       (cursect st) (sectname st) (Some name)
                       cur_indent_level e')
  | None =>
      Returned (mkReader (parser st) (added_sections st) (added_options st)
                  (cursect st) (sectname st) (optname st) cur_indent_level
                  true)
  end.

(** The body of the loop of [_read] for one line. *)
Definition read_line (st : reader) (line : str) : result reader :=
  let comment := is_comment line in
  let value := if comment then [] else strip line in
  match value with
  | [] =>
      if negb comment
         && match cursect st with Some _ => true | None => false end
         && truthy (optname st)
      then append_value st []
      else Returned st
  | _ =>
      let cur_indent_level := first_nonspace line in
      if match cursect st with Some _ => true | None => false end
         && truthy (optname st)
         && (indent_level st <? cur_indent_level)
      then append_value st value
      else
        match SECTCRE_match value with
        | Some header => read_header st cur_indent_level header
        | None =>
            match cursect st with
            | None => Raised MissingSectionHeaderError
            | Some r => read_option st cur_indent_level r value
            end
        end
  end.

Fixpoint read_lines (lines : list str) (st : reader) : result reader :=
  match lines with
  | [] => Returned st
  | line :: lines' => st' <- read_line st line ;; read_lines lines' st'
  end.

Definition join_value (v : pval) : str :=
  match v with
  | PStr s => s
  | PList l => rstrip (join_lines l)
  end.

Definition map_values {V W} (f : V -> W) (d : odict V) : odict W :=
  map (fun kv => (fst kv, f (snd kv))) d.

Definition _join_multiline_values (p : config_of pval) : Config :=
  mkConfig (map_values join_value (_defaults p))
           (map_values (map_values join_value) (_sections p)).

(** The parser state as [_read] finds it: every value is a string. *)
Definition as_read_state (c : Config) : config_of pval :=
  mkConfig (map_values PStr (_defaults c))
           (map_values (map_values PStr) (_sections c)).

Definition _read (fp : str) (c : Config) : result Config :=
  st <- read_lines (iter_lines fp)
          (mkReader (as_read_state c) [] [] None [] None 0 false) ;;
  if e st then Raised ParsingError
  else Returned (_join_multiline_values (parser st)).

(** [parser.read(path)]: a file that cannot be opened is skipped. *)
Definition read (file : option str) (c : Config) : result Config :=
  match file with
  | None => Returned c
  | Some content => _read (universal_newlines content) c
  end.

End ConfigParser.

(** ** The files and the manager *)

Module AwsCredentialsManager.
Import ConfigParser.

(** [self.path] and [self.path.with_suffix(".bak")]. *)
Record files : Type := mkFiles {
  credentials : option str;
  backup : option str
}.

(** What the file system does to the call: nothing, or the device takes
    only the first [n] characters of the copy, or only the first [n]
    characters of the write to the credentials file. *)
Inductive fault : Type :=
| NoFault
| CopyFault (n : nat)
| WriteFault (n : nat).

Inductive outcome (A : Type) : Type :=
| Returns (a : A) (config : Config) (fs : files)
| Raises (ex : exn) (fs : files).
Arguments Returns {A} a config fs.
Arguments Raises {A} ex fs.

(** [shutil.copy(self.path, self.path.with_suffix(".bak"))]. *)
Definition shutil_copy (io : fault) (fs : files) : result unit * files :=
  match credentials fs with
  | None => (Raised FileNotFoundError, fs)
  | Some content =>
      match io with
      | CopyFault n =>
          if n <? List.length content
          then (Raised OSError,
                mkFiles (credentials fs) (Some (firstn n content)))
          else (Returned tt, mkFiles (credentials fs) (Some content))
      | _ => (Returned tt, mkFiles (credentials fs) (Some content))
      end
  end.

(** [with open(self.path, "w") as f: self.config.write(f)]: the file is
    truncated, then the text is written. *)
Definition open_w_write (io : fault) (fs : files) (content : str)
  : result unit * files :=
  match io with
  | WriteFault n =>
      if n <? List.length content
      then (Raised OSError, mkFiles (Some (firstn n content)) (backup fs))
      else (Returned tt, mkFiles (Some content) (backup fs))
  | _ => (Returned tt, mkFiles (Some content) (backup fs))
  end.

(** [ensure_params]: the file is created empty when it does not exist. *)
Definition ensure_params (fs : files) : files :=
  match credentials fs with
  | None => mkFiles (Some []) (backup fs)
  | Some _ => fs
  end.

(** [__init__]: a new parser, and the file made to exist. *)
Definition __init__ (fs : files) : Config * files :=
  (ConfigParser.empty, ensure_params fs).

(** [load]: the file is read into [self.config], on top of what it
    holds. *)
Definition load (config : Config) (fs : files) : result Config :=
  ConfigParser.read (credentials fs) config.

Definition get_profiles (config : Config) (fs : files)
  : outcome (list str) :=
  match load config fs with
  | Raised ex => Raises ex fs
  | Returned config =>
      Returns (filter (fun sec => if str_eq_dec sec (text "default")
                                  then false else true)
                      (sections config))
              config fs
  end.


(** [self.config[name][key] = value]. *)
Definition assign (config : Config) (name key value : str)
  : result Config :=
  proxy <- __getitem__ config name ;;
  proxy_setitem config proxy key value.

(** Lines 50-56 of [add_profile]: the changes to [self.config]. *)
Definition add_profile_update (config : Config)
  (name access_key secret_key session_token : str) : result Config :=
  config <- (if has_section config name then Returned config
             else add_section config name) ;;
  config <- assign config name "aws_access_key_id" access_key ;;
  config <- assign config name "aws_secret_access_key" secret_key ;;
  match session_token with
  | [] => Returned config
  | _ => assign config name "aws_session_token" session_token
  end.

Definition add_profile_io (io : fault) (config : Config) (fs : files)
  (name access_key secret_key session_token : str) : outcome unit :=
  match load config fs with
  | Raised ex => Raises ex fs
  | Returned config =>
      match shutil_copy io fs with
      | (Raised ex, fs) => Raises ex fs
      | (Returned _, fs) =>
          match add_profile_update config name access_key secret_key
                  session_token with
          | Raised ex => Raises ex fs
          | Returned config =>
              match open_w_write io fs (write config) with
              | (Raised ex, fs) => Raises ex fs
              | (Returned _, fs) => Returns tt config fs
              end
          end
      end
  end.

Definition add_profile := add_profile_io NoFault.

(** Lines 77-78 of [set_default]: the keys of the source are fixed when
    the loop starts, each value is looked up when its turn comes. *)
Fixpoint copy_keys (config : Config) (source_profile : str)
  (keys : list str) : result Config :=
  match keys with
  | [] => Returned config
  | key :: keys' =>
      value <- proxy_getitem config source_profile key ;;
      config <- assign config "default" key value ;;
      copy_keys config source_profile keys'
  end.

(** Lines 69-78 of [set_default]: the changes to [self.config]. *)
Definition set_default_update (config : Config) (source_profile : str)
  : result Config :=
  config <- (if has_section config "default" then Returned config
             else add_section config "default") ;;
  let config := remove_section config "default" in
  config <- add_section config "default" ;;
  proxy <- __getitem__ config source_profile ;;
  keys <- _options config proxy ;;
  copy_keys config proxy keys.

Definition set_default_io (io : fault) (config : Config) (fs : files)
  (source_profile : str) : outcome unit :=
  match load config fs with
  | Raised ex => Raises ex fs
  | Returned config =>
      if negb (__contains__ config source_profile)
      then Returns tt config fs
      else
        match shutil_copy io fs with
        | (Raised ex, fs) => Raises ex fs
        | (Returned _, fs) =>
            match set_default_update config source_profile with
            | Raised ex => Raises ex fs
            | Returned config =>
                match open_w_write io fs (write config) with
                | (Raised ex, fs) => Raises ex fs
                | (Returned _, fs) => Returns tt config fs
                end
            end
        end
  end.

Definition set_default := set_default_io NoFault.

End AwsCredentialsManager.

(** ** Vocabulary of the properties *)

Import ConfigParser AwsCredentialsManager.

Definition str_eqb (a b : str) : bool :=
  if str_eq_dec a b then true else false.

Fixpoint nodupb (l : list str) : bool :=
  match l with
  | [] => true
  | x :: t => negb (existsb (str_eqb x) t) && nodupb t
  end.

(** The representation invariant of a parser: names are unique, and every
    option name is one that [optionxform] returns. *)
Definition wf_dict (d : odict str) : bool :=
  nodupb (od_keys d)
  && forallb (fun k => str_eqb (optionxform k) k) (od_keys d).

Definition wf_config (c : Config) : bool :=
  wf_dict (_defaults c)
  && nodupb (sections c)
  && forallb (fun s => wf_dict (snd s)) (_sections c).

(** No value of the mapping holds a ["%"]. *)
Definition percent_free (d : odict str) : bool :=
  forallb (fun kv => negb (contains "%" (snd kv))) d.

(** The text of a file given by its lines. *)
Definition unlines (lines : list str) : str :=
  List.concat (map (fun l => l ++ [LF]) lines).

Definition file_of (lines : list string) : option str :=
  Some (unlines (map text lines)).

Definition files_of {A} (o : outcome A) : files :=
  match o with
  | Returns _ _ fs => fs
  | Raises _ fs => fs
  end.

(** The value passes the syntax check that [ConfigParser.set] makes. *)
Definition settable (value : str) : bool :=
  match value with
  | [] => true
  | _ => match before_set value with
         | Returned _ => true
         | Raised _ => false
         end
  end.

(** The options of a profile after [add_profile], from those it had. *)
Definition profile_fields (d : odict str)
  (access_key secret_key session_token : str) : odict str :=
  let d := od_set (text "aws_access_key_id") access_key d in
  let d := od_set (text "aws_secret_access_key") secret_key d in
  match session_token with
  | [] => d
  | _ => od_set (text "aws_session_token") session_token d
  end.

Definition section_or_empty (c : Config) (name : str) : odict str :=
  match od_get name (_sections c) with
  | Some d => d
  | None => []
  end.

(** The option [key] that section [name] holds itself. *)
Definition own_option (c : Config) (name key : str) : option str :=
  match od_get name (_sections c) with
  | Some d => od_get key d
  | None => None
  end.

(** A name that [add_section] takes and [set] stores under: not empty and
    not the default section's. *)
Definition storable_name (name : str) : bool :=
  negb (str_eqb name []) && negb (str_eqb name default_section).

Definition is_profile_field (key : str) : bool :=
  str_eqb key (text "aws_access_key_id")
  || str_eqb key (text "aws_secret_access_key")
  || str_eqb key (text "aws_session_token").



(** The invariant as a proposition, for a parser with any kind of
    value. *)
Definition wf_dictP {V} (d : odict V) : Prop :=
  NoDup (od_keys d) /\ Forall (fun k => optionxform k = k) (od_keys d).

Definition wf_configP {V} (c : config_of V) : Prop :=
  wf_dictP (_defaults c)
  /\ NoDup (sections c)
  /\ Forall (fun s => wf_dictP (snd s)) (_sections c).

(** The sections after [set_default]: the [default] section taken out
    and put back last, with the options [d]. *)
Definition recreated (secs : odict (odict str)) (d : odict str)
  : odict (odict str) :=
  od_del (text "default") secs ++ [(text "default", d)].

(** ** Stores that survive a round trip *)

(** [v.split('\n')]. *)
Fixpoint split_lines (s : str) : list str :=
  match s with
  | [] => [[]]
  | c :: t =>
      if Ascii.eqb c LF then [] :: split_lines t
      else match split_lines t with
           | l :: ls => (c :: l) :: ls
           | [] => [[c]]
           end
  end.

Definition no_breaks (s : str) : bool :=
  negb (contains LF s) && negb (contains CR s).

Definition trimmed (s : str) : bool := str_eqb (strip s) s.

Definition comment_start (s : str) : bool :=
  startswith "#" s || startswith ";" s.

(** A line of a value: no carriage return, no whitespace at either end. *)
Definition valid_line (l : str) : bool :=
  negb (contains CR l) && trimmed l.

(** A value: valid lines, no line after the first that starts like a
    comment, no whitespace at the end. *)
Definition valid_value (v : str) : bool :=
  forallb valid_line (split_lines v)
  && forallb (fun l => negb (comment_start l)) (tl (split_lines v))
  && str_eqb (rstrip v) v.

(** An option name: not empty, in lower case, on one line, without
    whitespace at either end, without delimiter, not starting like a
    comment. *)
Definition valid_key (k : str) : bool :=
  negb (str_eqb k [])
  && str_eqb (optionxform k) k
  && trimmed k
  && no_breaks k
  && negb (existsb is_delimiter k)
  && negb (comment_start k).

(** The first line that [write] makes for an option. *)
Definition option_line (k v : str) : str :=
  k ++ text " = " ++ hd [] (split_lines v).

(** An option: a valid name, a valid value, and a first line that does
    not read as a section header. *)
Definition valid_entry (kv : str * str) : bool :=
  valid_key (fst kv)
  && valid_value (snd kv)
  && match SECTCRE_match (strip (option_line (fst kv) (snd kv))) with
     | None => true
     | Some _ => false
     end.

Definition valid_dict (d : odict str) : bool :=
  nodupb (od_keys d) && forallb valid_entry d.

(** A section name: not empty, on one line, not the default section's. *)
Definition valid_name (n : str) : bool :=
  negb (str_eqb n []) && no_breaks n && negb (str_eqb n default_section).

Definition valid_store (S : Config) : bool :=
  valid_dict (_defaults S)
  && nodupb (sections S)
  && forallb (fun s => valid_name (fst s) && valid_dict (snd s))
       (_sections S).

(** The lines that [write] makes. *)
Definition entry_lines (kv : str * str) : list str :=
  option_line (fst kv) (snd kv)
  :: map (cons TAB) (tl (split_lines (snd kv))).

Definition section_lines (n : str) (d : odict str) : list str :=
  ("["%char :: n ++ ["]"%char]) :: flat_map entry_lines d ++ [[]].

Definition store_lines (S : Config) : list str :=
  (match _defaults S with
   | [] => []
   | _ => section_lines default_section (_defaults S)
   end)
  ++ flat_map (fun s => section_lines (fst s) (snd s)) (_sections S).

(** What reading one section of a file does to a parser whose values are
    strings: the options are stored over those the section has. *)
Definition store_section (c : Config) (n : str) (d : odict str) : Config :=
  if has_section c n then
    mkConfig (_defaults c)
      (od_set n (od_update (section_or_empty c n) d) (_sections c))
  else if str_eq_dec n default_section then
    mkConfig (od_update (_defaults c) d) (_sections c)
  else
    mkConfig (_defaults c) (od_set n (od_update [] d) (_sections c)).

(** Reading the file written from [S] into a parser that holds [c]. *)
Definition merge_into (c S : Config) : Config :=
  fold_left (fun c s => store_section c (fst s) (snd s)) (_sections S)
    (match _defaults S with
     | [] => c
     | _ => store_section c default_section (_defaults S)
     end).

(** A line without line break. *)
Definition plain (l : str) : Prop := ~ In LF l /\ ~ In CR l.

(** The dictionary that [r] names is in the parser. *)
Definition ref_ok {V} (p : config_of V) (r : sectref) : Prop :=
  match r with
  | InDefaults => True
  | InSection n => has_section p n = true
  end.

(** The reader with another parser. *)
Definition with_parser (st : reader) (p : config_of pval) : reader :=
  mkReader p (added_sections st) (added_options st) (cursect st)
    (sectname st) (optname st) (indent_level st) (e st).

(** The reader after the lines of one option of the dictionary [r]. *)
Definition after_option (st : reader) (r : sectref) (k : str)
  (ls : list str) : reader :=
  mkReader (cursect_set (parser st) r k (PList ls)) (added_sections st)
    ((sectname st, k) :: added_options st) (Some r) (sectname st) (Some k)
    0 (e st).

Definition after_entries (st : reader) (r : sectref) (d : odict str)
  : reader :=
  fold_left (fun st kv => after_option st r (fst kv) (split_lines (snd kv)))
    d st.

(** * Properties *)

(** ** Characters and dictionaries *)

Lemma str_eqb_true (a b : str) : str_eqb a b = true <-> a = b.
Proof.
  unfold str_eqb. destruct (str_eq_dec a b); split; congruence.
Qed.

Lemma str_eqb_refl (a : str) : str_eqb a a = true.
Proof. now apply str_eqb_true. Qed.

Lemma nodupb_NoDup (l : list str) : nodupb l = true <-> NoDup l.
Proof.
  induction l as [|x t IH]; simpl.
  - split; auto using NoDup_nil.
  - rewrite andb_true_iff, negb_true_iff, IH. split.
    + intros [Hx Ht]. constructor; auto. intro Hin.
      assert (existsb (str_eqb x) t = true) as E.
      { apply existsb_exists. exists x. split; auto using str_eqb_refl. }
      congruence.
    + intros H. inversion H as [|? ? Hx Ht]; subst. split; auto.
      destruct (existsb (str_eqb x) t) eqn:E; auto.
      apply existsb_exists in E. destruct E as (y & Hy & Exy).
      apply str_eqb_true in Exy. subst. contradiction.
Qed.

Lemma lower_char_idem (c : ascii) : lower_char (lower_char c) = lower_char c.
Proof.
  destruct c as [[] [] [] [] [] [] [] []]; reflexivity.
Qed.

Lemma optionxform_idem (s : str) : optionxform (optionxform s) = optionxform s.
Proof.
  unfold optionxform, lower. rewrite map_map.
  apply map_ext. intro. apply lower_char_idem.
Qed.

Section Dict.
Context {V : Type}.
Implicit Types (d : odict V) (k : str) (v : V).

Lemma od_get_set_same d k v : od_get k (od_set k v d) = Some v.
Proof.
  induction d as [|[k' v'] t IH]; simpl.
  - destruct (str_eq_dec k k); congruence.
  - destruct (str_eq_dec k k') as [->|N]; simpl.
    + destruct (str_eq_dec k' k'); congruence.
    + destruct (str_eq_dec k k'); congruence.
Qed.

Lemma od_get_set_other d k k' v :
  k' <> k -> od_get k' (od_set k v d) = od_get k' d.
Proof.
  intros N. induction d as [|[k0 v0] t IH]; simpl.
  - destruct (str_eq_dec k' k); congruence.
  - destruct (str_eq_dec k k0) as [->|N0]; simpl.
    + destruct (str_eq_dec k' k0); congruence.
    + destruct (str_eq_dec k' k0); congruence.
Qed.

Lemma od_get_In d k v : od_get k d = Some v -> In (k, v) d.
Proof.
  induction d as [|[k' v'] t IH]; simpl; [discriminate|].
  destruct (str_eq_dec k k') as [->|N]; intros H.
  - injection H as ->. now left.
  - right. auto.
Qed.

Lemma od_get_None d k : od_get k d = None <-> ~ In k (od_keys d).
Proof.
  induction d as [|[k' v'] t IH]; simpl.
  - tauto.
  - destruct (str_eq_dec k k') as [->|N].
    + split; [discriminate|]. intros H. exfalso. apply H. now left.
    + rewrite IH. split; intros H; [intros [E|I]; congruence|tauto].
Qed.

Lemma od_mem_In d k : od_mem k d = true <-> In k (od_keys d).
Proof.
  unfold od_mem. destruct (od_get k d) eqn:E.
  - split; auto. intros _. apply od_get_In in E.
    apply (in_map fst) in E. exact E.
  - apply od_get_None in E. split; [discriminate|contradiction].
Qed.

Lemma od_keys_set d k v :
  od_keys (od_set k v d)
  = if od_mem k d then od_keys d else od_keys d ++ [k].
Proof.
  unfold od_mem. induction d as [|[k' v'] t IH]; simpl; auto.
  destruct (str_eq_dec k k') as [->|N]; simpl; auto.
  rewrite IH. destruct (od_get k t); reflexivity.
Qed.

Lemma od_set_NoDup d k v : NoDup (od_keys d) -> NoDup (od_keys (od_set k v d)).
Proof.
  intros H. rewrite od_keys_set. destruct (od_mem k d) eqn:E; auto.
  apply NoDup_app; auto.
  - repeat constructor. simpl. tauto.
  - intros x Hx [<-|[]]. apply od_mem_In in Hx. congruence.
Qed.

Lemma od_get_NoDup_In d k v :
  NoDup (od_keys d) -> In (k, v) d -> od_get k d = Some v.
Proof.
  induction d as [|[k' v'] t IH]; simpl; [tauto|].
  intros ND [E|I].
  - injection E as -> ->. destruct (str_eq_dec k k); congruence.
  - inversion ND as [|? ? Hk Ht]; subst.
    destruct (str_eq_dec k k') as [->|N]; auto.
    exfalso. apply Hk. apply (in_map fst) in I. exact I.
Qed.

Lemma od_set_same_value d k v :
  od_get k d = Some v -> od_set k v d = d.
Proof.
  induction d as [|[k' v'] t IH]; simpl; [discriminate|].
  destruct (str_eq_dec k k') as [->|N]; intros H.
  - now injection H as ->.
  - f_equal. auto.
Qed.

Lemma od_get_del_same d k : NoDup (od_keys d) -> od_get k (od_del k d) = None.
Proof.
  induction d as [|[k' v'] t IH]; simpl; auto.
  intros ND. inversion ND as [|? ? Hk Ht]; subst.
  destruct (str_eq_dec k k') as [->|N]; simpl.
  - now apply od_get_None.
  - destruct (str_eq_dec k k'); [congruence|auto].
Qed.

Lemma od_get_del_other d k k' :
  k' <> k -> od_get k' (od_del k d) = od_get k' d.
Proof.
  intros N. induction d as [|[k0 v0] t IH]; simpl; auto.
  destruct (str_eq_dec k k0) as [->|N0]; simpl.
  - destruct (str_eq_dec k' k0); congruence.
  - destruct (str_eq_dec k' k0); congruence.
Qed.

End Dict.

Lemma od_set_set {V} (d : odict V) (k : str) (v v' : V) :
  od_set k v' (od_set k v d) = od_set k v' d.
Proof.
  induction d as [|[k0 v0] t IH]; simpl.
  - destruct (str_eq_dec k k); congruence.
  - destruct (str_eq_dec k k0) as [->|N]; simpl.
    + destruct (str_eq_dec k0 k0); congruence.
    + destruct (str_eq_dec k k0); congruence.
Qed.

Lemma od_set_absent {V} (d : odict V) (k : str) (v : V) :
  od_get k d = None -> od_set k v d = d ++ [(k, v)].
Proof.
  induction d as [|[k0 v0] t IH]; simpl; auto.
  destruct (str_eq_dec k k0); [discriminate|]. intros H. f_equal. auto.
Qed.

(** ** The parser's interface *)

Lemma has_section_get {V} (c : config_of V) (name : str) :
  has_section c name = true <-> exists d, od_get name (_sections c) = Some d.
Proof.
  unfold has_section, od_mem. destruct (od_get name (_sections c)).
  - split; eauto.
  - split; [discriminate|]. intros [d H]. discriminate.
Qed.

Lemma set_section (c : Config) (section option value : str) (d : odict str) :
  settable value = true ->
  section <> [] -> section <> default_section ->
  od_get section (_sections c) = Some d ->
  ConfigParser.set c section option value
  = Returned (mkConfig (_defaults c)
                (od_set section (od_set (optionxform option) value d)
                   (_sections c))).
Proof.
  intros Hv Hne Hnd Hd. unfold ConfigParser.set.
  assert (match value with [] => Returned value | _ => before_set value end
          = Returned value) as ->.
  { unfold settable in Hv. destruct value; auto.
    destruct (before_set (a :: value)) eqn:E; [|discriminate].
    unfold before_set in *.
    destruct (contains _ _); congruence. }
  simpl. destruct section; [congruence|].
  destruct (str_eq_dec _ default_section); [congruence|]. simpl.
  now rewrite Hd.
Qed.

Lemma assign_section (c : Config) (name key value : str) (d : odict str) :
  settable value = true ->
  name <> [] -> name <> default_section ->
  od_get name (_sections c) = Some d ->
  assign c name key value
  = Returned (mkConfig (_defaults c)
                (od_set name (od_set (optionxform key) value d)
                   (_sections c))).
Proof.
  intros Hv Hne Hnd Hd. unfold assign, __getitem__.
  destruct (str_eq_dec name default_section); [congruence|].
  assert (has_section c name = true) as -> by (apply has_section_get; eauto).
  simpl. unfold proxy_setitem. now apply set_section.
Qed.

(** [add_profile] changes the parser as [profile_fields] says. *)
Lemma add_profile_update_fields (c : Config)
  (name access_key secret_key session_token : str) :
  name <> [] -> name <> default_section ->
  settable access_key = true -> settable secret_key = true ->
  settable session_token = true ->
  add_profile_update c name access_key secret_key session_token
  = Returned (mkConfig (_defaults c)
                (od_set name
                   (profile_fields (section_or_empty c name)
                      access_key secret_key session_token)
                   (_sections c))).
Proof.
  intros Hne Hnd Ha Hs Ht. unfold add_profile_update.
  set (d0 := section_or_empty c name).
  assert (exists c1,
    (if has_section c name then Returned c else add_section c name)
    = Returned c1
    /\ _defaults c1 = _defaults c
    /\ od_get name (_sections c1) = Some d0
    /\ forall d, od_set name d (_sections c1) = od_set name d (_sections c))
    as (c1 & -> & Hdef & Hget & Hset).
  { unfold d0, section_or_empty, has_section, od_mem, add_section.
    destruct (od_get name (_sections c)) as [d|] eqn:E.
    - exists c. auto.
    - destruct (str_eq_dec name default_section); [congruence|].
      unfold od_mem. rewrite E. eexists. split; [reflexivity|]. simpl.
      split; auto. split; [apply od_get_set_same|].
      intros d. apply od_set_set. }
  simpl.
  rewrite (assign_section c1 name _ _ d0) by auto. simpl.
  erewrite assign_section; auto; [|simpl; apply od_get_set_same]. simpl.
  rewrite od_set_set, Hset, Hdef.
  unfold profile_fields. fold d0.
  destruct session_token as [|t0 tok]; [reflexivity|].
  erewrite assign_section; auto; [|simpl; apply od_get_set_same]. simpl.
  rewrite od_set_set. reflexivity.
Qed.

Lemma storable_name_spec (name : str) :
  storable_name name = true -> name <> [] /\ name <> default_section.
Proof.
  unfold storable_name. rewrite andb_true_iff, !negb_true_iff.
  intros [H1 H2]. split; intros E; subst.
  - now rewrite str_eqb_refl in H1.
  - now rewrite str_eqb_refl in H2.
Qed.

(** ** add_profile *)

(** What a call of [add_profile] that finds the file does, in one
    equation: the backup holds the old text, the file the new parser. *)
Lemma add_profile_returns (config loaded : Config) (fs : files)
  (content name access_key secret_key session_token : str) :
  load config fs = Returned loaded ->
  credentials fs = Some content ->
  storable_name name = true ->
  settable access_key = true -> settable secret_key = true ->
  settable session_token = true ->
  let config' :=
    mkConfig (_defaults loaded)
      (od_set name
         (profile_fields (section_or_empty loaded name)
            access_key secret_key session_token)
         (_sections loaded)) in
  add_profile config fs name access_key secret_key session_token
  = Returns tt config' (mkFiles (Some (write config')) (Some content)).
Proof.
  intros Hl Hc Hn Ha Hs Ht config'.
  apply storable_name_spec in Hn as [Hne Hnd].
  unfold add_profile, add_profile_io. rewrite Hl.
  unfold shutil_copy. rewrite Hc.
  rewrite add_profile_update_fields by auto.
  reflexivity.
Qed.

Lemma profile_fields_other (d : odict str) (a s t key : str) :
  is_profile_field key = false ->
  od_get key (profile_fields d a s t) = od_get key d.
Proof.
  unfold is_profile_field. rewrite !orb_false_iff.
  intros [[H1 H2] H3].
  assert (forall k, str_eqb key k = false -> key <> k) as N.
  { intros k E ->. now rewrite str_eqb_refl in E. }
  unfold profile_fields. destruct t.
  - rewrite !od_get_set_other by auto. reflexivity.
  - rewrite !od_get_set_other by auto. reflexivity.
Qed.

(** C8 (amended).  When the file loads, [name] is neither empty nor
    ["DEFAULT"], and the three values pass the interpolation syntax check
    of [set], [add_profile] returns; the section [name] exists, holds the
    access key and the secret key, holds the session token when it is not
    empty and keeps its former token option otherwise; every other option
    of [name], every other section, and the defaults are as loaded. *)
Theorem add_profile_frame (config loaded : Config) (fs : files)
  (content name access_key secret_key session_token : str) :
  load config fs = Returned loaded ->
  credentials fs = Some content ->
  storable_name name = true ->
  settable access_key = true -> settable secret_key = true ->
  settable session_token = true ->
  exists config',
    add_profile config fs name access_key secret_key session_token
    = Returns tt config' (mkFiles (Some (write config')) (Some content))
    /\ has_section config' name = true
    /\ own_option config' name (text "aws_access_key_id") = Some access_key
    /\ own_option config' name (text "aws_secret_access_key")
       = Some secret_key
    /\ own_option config' name (text "aws_session_token")
       = match session_token with
         | [] => own_option loaded name (text "aws_session_token")
         | _ => Some session_token
         end
    /\ (forall key, is_profile_field key = false ->
          own_option config' name key = own_option loaded name key)
    /\ (forall other, other <> name ->
          od_get other (_sections config') = od_get other (_sections loaded))
    /\ _defaults config' = _defaults loaded.
Proof.
  intros Hl Hc Hn Ha Hs Ht.
  eexists. split; [now apply (add_profile_returns config loaded)|].
  unfold own_option, has_section, od_mem. simpl.
  rewrite !od_get_set_same.
  assert (forall key, od_get key (section_or_empty loaded name)
                      = own_option loaded name key) as Hown.
  { intros key. unfold section_or_empty, own_option.
    destruct (od_get name (_sections loaded)); reflexivity. }
  repeat split.
  - unfold profile_fields. destruct session_token.
    + rewrite od_get_set_other by discriminate. apply od_get_set_same.
    + rewrite !od_get_set_other by discriminate. apply od_get_set_same.
  - unfold profile_fields. destruct session_token.
    + apply od_get_set_same.
    + rewrite od_get_set_other by discriminate. apply od_get_set_same.
  - unfold profile_fields. destruct session_token.
    + rewrite !od_get_set_other by discriminate. apply Hown.
    + apply od_get_set_same.
  - intros key Hk. rewrite profile_fields_other by auto. apply Hown.
  - intros other Ho. now apply od_get_set_other.
Qed.

Lemma add_profile_frame_witness :
  let fs := mkFiles (file_of ["[work]"; "region = eu"; ""; "[home]";
                              "aws_access_key_id = OLD"]) None in
  load ConfigParser.empty fs
  = Returned (mkConfig []
                [(text "work", [(text "region", text "eu")]);
                 (text "home", [(text "aws_access_key_id", text "OLD")])])
  /\ storable_name (text "work") = true
  /\ exists config',
       add_profile ConfigParser.empty fs (text "work") (text "AKIA123")
         (text "secret123") []
       = Returns tt config'
           (mkFiles (Some (write config')) (credentials fs))
       /\ own_option config' (text "work") (text "region")
          = Some (text "eu").
Proof.
  split; [reflexivity|]. split; [reflexivity|].
  destruct (add_profile_frame ConfigParser.empty _
              (mkFiles (file_of ["[work]"; "region = eu"; ""; "[home]";
                                 "aws_access_key_id = OLD"]) None)
              _ (text "work") (text "AKIA123") (text "secret123") []
              eq_refl eq_refl eq_refl eq_refl eq_refl eq_refl)
    as (config' & Hcall & _ & _ & _ & _ & Hother & _).
  exists config'. split; [exact Hcall|].
  rewrite Hother by reflexivity. reflexivity.
Defined.

(** C8, as stated, fails: for the name ["DEFAULT"] the call raises
    [ValueError] after the backup; no section is created and the file is
    as it was. *)
Lemma add_profile_DEFAULT_counterexample :
  let fs := mkFiles (file_of ["[work]"; "region = eu"]) None in
  add_profile ConfigParser.empty fs (text "DEFAULT") (text "AKIA123")
    (text "secret123") []
  = Raises ValueError (mkFiles (credentials fs) (credentials fs)).
Proof. reflexivity. Qed.

(** C2 (amended).  [add_profile] does not reject the name ["default"]: it
    is a section name like any other.  When the file loads and the values
    pass the syntax check of [set], the call returns with the backup made
    and the section ["default"] written with the given keys. *)
Theorem add_profile_default_accepted (config loaded : Config) (fs : files)
  (content access_key secret_key session_token : str) :
  load config fs = Returned loaded ->
  credentials fs = Some content ->
  settable access_key = true -> settable secret_key = true ->
  settable session_token = true ->
  exists config',
    add_profile config fs (text "default") access_key secret_key
      session_token
    = Returns tt config' (mkFiles (Some (write config')) (Some content))
    /\ own_option config' (text "default") (text "aws_access_key_id")
       = Some access_key
    /\ own_option config' (text "default") (text "aws_secret_access_key")
       = Some secret_key.
Proof.
  intros Hl Hc Ha Hs Ht.
  eexists. split.
  - now apply (add_profile_returns config loaded).
  - unfold own_option. simpl. rewrite !od_get_set_same.
    unfold profile_fields. destruct session_token.
    + rewrite od_get_set_other by discriminate.
      rewrite !od_get_set_same. auto.
    + rewrite !od_get_set_other by discriminate.
      rewrite od_get_set_same.
      rewrite od_get_set_other by discriminate.
      rewrite od_get_set_same. auto.
Qed.

Lemma add_profile_default_accepted_witness :
  let fs := mkFiles (file_of ["[default]"; "aws_access_key_id = ACTIVE";
                              "aws_secret_access_key = s3cr3t"]) None in
  load ConfigParser.empty fs
  = Returned (mkConfig []
                [(text "default",
                  [(text "aws_access_key_id", text "ACTIVE");
                   (text "aws_secret_access_key", text "s3cr3t")])])
  /\ exists config',
       add_profile ConfigParser.empty fs (text "default") (text "AKIA123")
         (text "secret123") []
       = Returns tt config'
           (mkFiles (Some (write config')) (credentials fs))
       /\ own_option config' (text "default") (text "aws_access_key_id")
          = Some (text "AKIA123")
       /\ own_option config' (text "default")
            (text "aws_secret_access_key")
          = Some (text "secret123").
Proof.
  split; [reflexivity|].
  exact (add_profile_default_accepted ConfigParser.empty _
           (mkFiles (file_of ["[default]"; "aws_access_key_id = ACTIVE";
                              "aws_secret_access_key = s3cr3t"]) None)
           _ (text "AKIA123") (text "secret123") []
           eq_refl eq_refl eq_refl eq_refl eq_refl).
Defined.

(** C2, as stated, fails: the call with the name ["default"] returns
    normally and overwrites the keys of the alias section in the store and
    in the file. *)
Lemma add_profile_default_counterexample :
  let fs := mkFiles (file_of ["[default]"; "aws_access_key_id = ACTIVE";
                              "aws_secret_access_key = s3cr3t"]) None in
  add_profile ConfigParser.empty fs (text "default") (text "AKIA123")
    (text "secret123") []
  = Returns tt
      (mkConfig []
         [(text "default",
           [(text "aws_access_key_id", text "AKIA123");
            (text "aws_secret_access_key", text "secret123")])])
      (mkFiles (file_of ["[default]"; "aws_access_key_id = AKIA123";
                         "aws_secret_access_key = secret123"; ""])
         (credentials fs)).
Proof. reflexivity. Qed.

(** ** Backup before write *)



(** ** The parser keeps its invariant *)

Lemma wf_dict_iff (d : odict str) : wf_dict d = true <-> wf_dictP d.
Proof.
  unfold wf_dict, wf_dictP.
  rewrite andb_true_iff, nodupb_NoDup, forallb_forall, Forall_forall.
  split; intros [H1 H2]; split; auto; intros k Hk.
  - now apply str_eqb_true, H2.
  - now apply str_eqb_true, H2.
Qed.

Lemma wf_config_iff (c : Config) : wf_config c = true <-> wf_configP c.
Proof.
  unfold wf_config, wf_configP.
  rewrite !andb_true_iff, wf_dict_iff, nodupb_NoDup, forallb_forall,
    Forall_forall.
  split.
  - intros [[H1 H2] H3]. split; [exact H1|]. split; [exact H2|].
    intros s Hs. now apply wf_dict_iff, H3.
  - intros (H1 & H2 & H3). split; [split; [exact H1|exact H2]|].
    intros s Hs. now apply wf_dict_iff, H3.
Qed.

Lemma od_keys_map_values {V W} (f : V -> W) (d : odict V) :
  od_keys (map_values f d) = od_keys d.
Proof.
  unfold od_keys, map_values. rewrite map_map. reflexivity.
Qed.

Lemma od_get_map_values {V W} (f : V -> W) (d : odict V) (k : str) :
  od_get k (map_values f d) = option_map f (od_get k d).
Proof.
  induction d as [|[k' v'] t IH]; simpl; auto.
  destruct (str_eq_dec k k'); auto.
Qed.

Lemma od_set_map_values {V W} (f : V -> W) (d : odict V) (k : str) (v : V) :
  map_values f (od_set k v d) = od_set k (f v) (map_values f d).
Proof.
  induction d as [|[k' v'] t IH]; simpl; auto.
  destruct (str_eq_dec k k'); simpl; [reflexivity|]. now rewrite IH.
Qed.

Lemma map_values_map_values {U V W} (f : U -> V) (g : V -> W) (d : odict U) :
  map_values g (map_values f d) = map_values (fun x => g (f x)) d.
Proof.
  unfold map_values. rewrite map_map. reflexivity.
Qed.

Lemma map_values_id {V} (f : V -> V) (d : odict V) :
  (forall v, f v = v) -> map_values f d = d.
Proof.
  intros H. induction d as [|[k v] t IH]; simpl; auto.
  now rewrite H, IH.
Qed.

Lemma map_values_ext {V W} (f g : V -> W) (d : odict V) :
  (forall v, f v = g v) -> map_values f d = map_values g d.
Proof.
  intros H. apply map_ext. intros [k v]. simpl. now rewrite H.
Qed.

Lemma wf_dictP_map_values {V W} (f : V -> W) (d : odict V) :
  wf_dictP (map_values f d) <-> wf_dictP d.
Proof.
  unfold wf_dictP. rewrite od_keys_map_values. tauto.
Qed.

Lemma Forall_od_set {V} (Q : str * V -> Prop) (d : odict V) (k : str) (v : V) :
  Forall Q d -> Q (k, v) -> Forall Q (od_set k v d).
Proof.
  intros Hd Hq. induction d as [|[k' v'] t IH]; simpl.
  - auto.
  - inversion Hd; subst. destruct (str_eq_dec k k'); auto.
Qed.

Lemma wf_dictP_set {V} (d : odict V) (k : str) (v : V) :
  wf_dictP d -> optionxform k = k \/ od_mem k d = true ->
  wf_dictP (od_set k v d).
Proof.
  intros [ND F] Hk. split; [now apply od_set_NoDup|].
  rewrite od_keys_set. destruct (od_mem k d) eqn:E; auto.
  destruct Hk as [Hk|Hk]; [|discriminate].
  apply Forall_app. auto.
Qed.

Lemma wf_configP_section {V} (c : config_of V) (n : str) (d : odict V) :
  wf_configP c -> od_get n (_sections c) = Some d -> wf_dictP d.
Proof.
  intros (_ & _ & F) H. apply od_get_In in H.
  rewrite Forall_forall in F. exact (F _ H).
Qed.

Lemma wf_configP_set_section {V} (c : config_of V) (n : str) (d : odict V) :
  wf_configP c -> wf_dictP d ->
  wf_configP (mkConfig (_defaults c) (od_set n d (_sections c))).
Proof.
  intros (Hd & ND & F) Hw. repeat split; simpl; try apply Hd.
  - now apply od_set_NoDup.
  - now apply Forall_od_set.
Qed.

Lemma wf_configP_cursect_set (p : config_of pval) (r : sectref) (k : str)
  (v : pval) :
  wf_configP p ->
  optionxform k = k \/ (exists w, cursect_get p r k = Some w) ->
  wf_configP (cursect_set p r k v).
Proof.
  intros Hp Hk. destruct r as [|n]; simpl in *.
  - destruct Hp as (Hd & ND & F). split; [|split]; simpl; auto.
    apply wf_dictP_set; auto.
    destruct Hk as [Hk|[w Hw]]; auto. right. unfold od_mem. now rewrite Hw.
  - destruct (od_get n (_sections p)) as [d|] eqn:E; auto.
    apply wf_configP_set_section; auto.
    apply wf_dictP_set; [now apply (wf_configP_section p n)|].
    destruct Hk as [Hk|[w Hw]]; auto. right. unfold od_mem. now rewrite Hw.
Qed.

Lemma read_line_wf (st st' : reader) (line : str) :
  wf_configP (parser st) ->
  read_line st line = Returned st' ->
  wf_configP (parser st').
Proof.
  intros Hp. unfold read_line.
  assert (forall value, append_value st value = Returned st' ->
                        wf_configP (parser st')) as Happ.
  { intros value. unfold append_value.
    destruct (cursect st) as [r|]; [|discriminate].
    destruct (optname st) as [o|]; [|discriminate].
    destruct (cursect_get (parser st) r o) as [[s|l]|] eqn:E;
      try discriminate.
    intros H. injection H as <-. simpl.
    apply wf_configP_cursect_set; eauto. }
  destruct (if is_comment line then [] else strip line) as [|c value].
  - destruct (_ && _ && _); [apply Happ|].
    now intros H; injection H as <-.
  - destruct (_ && _ && _); [apply Happ|].
    destruct (SECTCRE_match (c :: value)) as [header|].
    + unfold read_header.
      destruct (has_section (parser st) header).
      * destruct (in_sections header (added_sections st)); [discriminate|].
        now intros H; injection H as <-.
      * destruct (str_eq_dec header default_section);
          intros H; injection H as <-; simpl; auto.
        apply wf_configP_set_section; auto.
        split; simpl; constructor.
    + destruct (cursect st) as [r|]; [|discriminate].
      unfold read_option.
      destruct (OPTCRE_match (c :: value)) as [[name optval]|].
      * destruct (in_options _ _); [discriminate|].
        intros H; injection H as <-. simpl.
        apply wf_configP_cursect_set; auto.
        left. apply optionxform_idem.
      * now intros H; injection H as <-.
Qed.

Lemma read_lines_wf (lines : list str) (st st' : reader) :
  wf_configP (parser st) ->
  read_lines lines st = Returned st' ->
  wf_configP (parser st').
Proof.
  revert st. induction lines as [|line lines IH]; simpl; intros st Hp.
  - now intros H; injection H as <-.
  - destruct (read_line st line) as [st1|ex] eqn:E; simpl; [|discriminate].
    apply IH. now apply (read_line_wf st st1 line).
Qed.

Lemma wf_configP_map {V W} (f : V -> W) (c : config_of V) :
  wf_configP (mkConfig (map_values f (_defaults c))
                (map_values (map_values f) (_sections c)))
  <-> wf_configP c.
Proof.
  unfold wf_configP, sections. simpl.
  rewrite wf_dictP_map_values, od_keys_map_values.
  assert (Forall (fun s => wf_dictP (snd s))
            (map_values (map_values f) (_sections c))
          <-> Forall (fun s : str * odict V => wf_dictP (snd s))
                (_sections c)) as ->; [|tauto].
  unfold map_values at 1. rewrite Forall_map, !Forall_forall.
  split; intros H [n d] Hin; apply wf_dictP_map_values with (f := f);
    apply (H (n, d) Hin) || (specialize (H (n, d) Hin); simpl in *;
                             now apply wf_dictP_map_values in H).
Qed.

(** Reading a file keeps the invariant of the parser. *)
Lemma read_wf (file : option str) (c c' : Config) :
  wf_config c = true -> read file c = Returned c' -> wf_config c' = true.
Proof.
  rewrite !wf_config_iff. intros Hc. unfold read.
  destruct file as [content|]; [|now intros H; injection H as <-].
  unfold _read.
  destruct (read_lines _ _) as [st|ex] eqn:E; simpl; [|discriminate].
  destruct (e st); [discriminate|]. intros H; injection H as <-.
  unfold _join_multiline_values. apply wf_configP_map.
  apply (read_lines_wf _ _ _) in E; auto. simpl.
  unfold as_read_state. now apply wf_configP_map.
Qed.

(** ** get_profiles *)

Lemma get_profiles_example :
  get_profiles ConfigParser.empty
    (mkFiles (file_of ["[default]"; "k = v"; "[alpha]"; "k = 1"; "[beta]"])
       None)
  = Returns [text "alpha"; text "beta"]
      (mkConfig []
         [(text "default", [(text "k", text "v")]);
          (text "alpha", [(text "k", text "1")]);
          (text "beta", [])])
      (mkFiles (file_of ["[default]"; "k = v"; "[alpha]"; "k = 1"; "[beta]"])
         None).
Proof. reflexivity. Qed.

(** ** set_default on a name that is not a section *)

(** For a name other than ["DEFAULT"] that is not a section of the loaded
    store, [set_default] returns and both files are as they were. *)
Lemma set_default_missing_source (config loaded : Config) (fs : files)
  (source_profile : str) :
  load config fs = Returned loaded ->
  source_profile <> default_section ->
  has_section loaded source_profile = false ->
  set_default config fs source_profile = Returns tt loaded fs.
Proof.
  intros Hl Hn Hs. unfold set_default, set_default_io. rewrite Hl.
  unfold __contains__.
  destruct (str_eq_dec source_profile default_section); [congruence|].
  now rewrite Hs.
Qed.

(** C3.  The code at the failing input: no section is named ["DEFAULT"],
    yet [set_default("DEFAULT")] does not stop at its guard; it makes the
    backup and writes the file with a new, empty [default] section. *)
Theorem set_default_DEFAULT_writes :
  let fs := mkFiles (file_of ["[work]"; "k = v"]) None in
  let loaded := mkConfig [] [(text "work", [(text "k", text "v")])] in
  load ConfigParser.empty fs = Returned loaded
  /\ has_section loaded (text "DEFAULT") = false
  /\ set_default ConfigParser.empty fs (text "DEFAULT")
     = Returns tt
         (mkConfig [] [(text "work", [(text "k", text "v")]);
                       (text "default", [])])
         (mkFiles (file_of ["[work]"; "k = v"; ""; "[default]"; ""])
            (credentials fs)).
Proof. repeat split. Qed.

(** ** One manager instance over several calls *)

(** C5.  The code at the failing input: one instance lists the profiles,
    the section [alpha] is then deleted from the file, and the same
    instance still lists [alpha]; a new instance does not. *)
Theorem stale_section_survives :
  let before := mkFiles (file_of ["[alpha]"; "k = v"; "[beta]"; "k = w"])
                  None in
  let edited := mkFiles (file_of ["[beta]"; "k = w"]) None in
  exists config1 config2 config3,
    get_profiles (fst (__init__ before)) before
    = Returns [text "alpha"; text "beta"] config1 before
    /\ get_profiles config1 edited
       = Returns [text "alpha"; text "beta"] config2 edited
    /\ get_profiles (fst (__init__ edited)) edited
       = Returns [text "beta"] config3 edited.
Proof. do 3 eexists. repeat split. Qed.



(** ** Values without interpolation *)

Arguments Ascii.eqb : simpl never.
Arguments text : simpl never.
Arguments isspace : simpl never.
Arguments lower_char : simpl never.

Lemma break_percent_free (v : str) :
  contains "%" v = false -> break_percent v = (v, []).
Proof.
  unfold contains. induction v as [|c t IH]; simpl; auto.
  rewrite orb_false_iff. intros [Hc Ht].
  rewrite Ascii.eqb_sym, Hc, (IH Ht). reflexivity.
Qed.

Lemma before_get_percent_free (v : str) (d : str -> option str) :
  contains "%" v = false -> before_get v d = Returned v.
Proof.
  intros H. unfold before_get. simpl.
  destruct v as [|c t]; auto.
  now rewrite (break_percent_free _ H).
Qed.

Lemma KEYCRE_match_percent_free (v : str) :
  contains "%" v = false -> KEYCRE_match v = None.
Proof.
  unfold contains. destruct v as [|c1 [|c2 t]]; simpl; auto.
  rewrite orb_false_iff. intros [H _].
  now rewrite Ascii.eqb_sym, H.
Qed.

Lemma KEYCRE_sub_percent_free (fuel : nat) (v : str) :
  contains "%" v = false -> contains "%" (KEYCRE_sub fuel v) = false.
Proof.
  revert v. induction fuel as [|fuel IH]; intros v H; simpl; auto.
  destruct v as [|c t]; auto.
  rewrite (KEYCRE_match_percent_free _ H).
  unfold contains in *. simpl in *.
  apply orb_false_iff in H as [Hc Ht]. rewrite Hc. simpl. now apply IH.
Qed.

Lemma remove_escaped_percent_free (v : str) :
  contains "%" v = false -> remove_escaped v = v.
Proof.
  unfold contains. induction v as [|c1 t IH]; simpl; auto.
  rewrite orb_false_iff. intros [Hc Ht].
  destruct t as [|c2 t']; auto.
  rewrite Ascii.eqb_sym, Hc. simpl. f_equal. now apply IH.
Qed.

Lemma settable_percent_free (v : str) :
  contains "%" v = false -> settable v = true.
Proof.
  intros H. unfold settable. destruct v as [|c t]; auto.
  unfold before_set. rewrite (remove_escaped_percent_free _ H).
  now rewrite (KEYCRE_sub_percent_free _ _ H).
Qed.

(** ** The copy loop of set_default *)

Lemma od_get_app {V} (a b : odict V) (k : str) :
  od_get k (a ++ b)
  = match od_get k a with Some v => Some v | None => od_get k b end.
Proof.
  induction a as [|[k' v'] t IH]; simpl; auto.
  destruct (str_eq_dec k k'); auto.
Qed.

Lemma od_del_absent {V} (d : odict V) (k : str) :
  od_get k d = None -> od_del k d = d.
Proof.
  induction d as [|[k' v'] t IH]; simpl; auto.
  destruct (str_eq_dec k k'); [discriminate|]. intros H. f_equal. auto.
Qed.

Lemma od_del_app_last {V} (d : odict V) (k : str) (v : V) :
  od_get k d = None -> od_del k (d ++ [(k, v)]) = d.
Proof.
  induction d as [|[k' v'] t IH]; simpl.
  - destruct (str_eq_dec k k); congruence.
  - destruct (str_eq_dec k k'); [discriminate|]. intros H. f_equal. auto.
Qed.

Lemma od_set_app_last {V} (d : odict V) (k : str) (v v' : V) :
  od_get k d = None -> od_set k v' (d ++ [(k, v)]) = d ++ [(k, v')].
Proof.
  induction d as [|[k' w] t IH]; simpl.
  - destruct (str_eq_dec k k); congruence.
  - destruct (str_eq_dec k k'); [discriminate|]. intros H. f_equal. auto.
Qed.

(** Lines 69-74: the [default] section is taken out and put back, empty
    and last. *)
Lemma recreate_default (c : Config) :
  NoDup (sections c) ->
  (c1 <- (if has_section c (text "default") then Returned c
          else add_section c (text "default")) ;;
   add_section (remove_section c1 (text "default")) (text "default"))
  = Returned (mkConfig (_defaults c) (recreated (_sections c) [])).
Proof.
  intros ND. unfold recreated, has_section, od_mem.
  destruct (od_get (text "default") (_sections c)) as [d|] eqn:E; simpl.
  - unfold remove_section, od_mem. rewrite E.
    unfold add_section. simpl.
    destruct (str_eq_dec (text "default") default_section); [discriminate|].
    unfold od_mem. rewrite od_get_del_same by exact ND. simpl.
    now rewrite od_set_absent by (now apply od_get_del_same).
  - unfold add_section at 1.
    destruct (str_eq_dec (text "default") default_section); [discriminate|].
    unfold od_mem. rewrite E. simpl.
    unfold remove_section, od_mem. simpl.
    rewrite od_get_set_same.
    rewrite (od_set_absent _ _ _ E), (od_del_app_last _ _ _ E).
    unfold add_section. simpl.
    destruct (str_eq_dec (text "default") default_section); [discriminate|].
    unfold od_mem. rewrite E. simpl.
    now rewrite (od_set_absent _ _ _ E), (od_del_absent _ _ E).
Qed.









Lemma recreate_default_then {A} (c : Config) (k : Config -> result A) :
  NoDup (sections c) ->
  (c1 <- (if has_section c (text "default") then Returned c
          else add_section c (text "default")) ;;
   let c2 := remove_section c1 (text "default") in
   c3 <- add_section c2 (text "default") ;;
   k c3)
  = k (mkConfig (_defaults c) (recreated (_sections c) [])).
Proof.
  intros ND. pose proof (recreate_default c ND) as H.
  destruct (if has_section c (text "default") then Returned c
            else add_section c (text "default")) as [c1|ex];
    simpl in *; [|discriminate].
  now rewrite H.
Qed.

Lemma od_get_recreated (secs : odict (odict str)) (name : str)
  (d : odict str) :
  od_get name (recreated secs d)
  = if str_eq_dec name (text "default")
    then match od_get name (od_del (text "default") secs) with
         | Some d' => Some d'
         | None => Some d
         end
    else od_get name secs.
Proof.
  unfold recreated. rewrite od_get_app. simpl.
  destruct (str_eq_dec name (text "default")) as [->|N]; auto.
  rewrite od_get_del_other by exact N.
  now destruct (od_get name secs).
Qed.

Lemma od_get_recreated_default (secs : odict (odict str)) (d : odict str) :
  NoDup (od_keys secs) ->
  od_get (text "default") (recreated secs d) = Some d.
Proof.
  intros ND. rewrite od_get_recreated.
  destruct (str_eq_dec _ _); [|congruence].
  now rewrite od_get_del_same.
Qed.

Lemma od_get_recreated_other (secs : odict (odict str)) (name : str)
  (d : odict str) :
  name <> text "default" ->
  od_get name (recreated secs d) = od_get name secs.
Proof.
  intros N. rewrite od_get_recreated.
  destruct (str_eq_dec _ _); congruence.
Qed.

Lemma od_set_recreated (secs : odict (odict str)) (d d' : odict str) :
  NoDup (od_keys secs) ->
  od_set (text "default") d' (recreated secs d) = recreated secs d'.
Proof.
  intros ND. unfold recreated. apply od_set_app_last.
  now apply od_get_del_same.
Qed.










(** ** set_default with the alias section as its own source *)

Lemma od_update_fresh {V} (d acc : odict V) :
  NoDup (od_keys (acc ++ d)) -> od_update acc d = acc ++ d.
Proof.
  unfold od_update. revert acc.
  induction d as [|[k v] t IH]; intros acc ND; simpl.
  - now rewrite app_nil_r.
  - assert (od_get k acc = None) as Habs.
    { apply od_get_None. intros Hin. unfold od_keys in ND.
      rewrite map_app in ND. simpl in ND.
      apply NoDup_remove_2 in ND. apply ND. apply in_or_app. now left. }
    rewrite (od_set_absent _ _ _ Habs), IH; now rewrite <- app_assoc.
Qed.

(** The loop over [default] itself: its own options are gone when the loop
    starts, so what it finds are the options of the defaults. *)
Lemma copy_keys_self (rest : odict str) :
  forall (c : Config) (acc : odict str),
  _defaults c = acc ++ rest ->
  wf_dictP (_defaults c) ->
  percent_free rest = true ->
  od_get (text "default") (_sections c) = Some acc ->
  copy_keys c (text "default") (od_keys rest)
  = Returned (mkConfig (_defaults c)
                (od_set (text "default") (acc ++ rest) (_sections c))).
Proof.
  induction rest as [|[k v] t IH]; intros c acc Hd Hwf Hpf Hacc; simpl.
  - rewrite app_nil_r, od_set_same_value by exact Hacc. now destruct c.
  - simpl in Hpf. apply andb_true_iff in Hpf as [Hv Ht].
    apply negb_true_iff in Hv.
    destruct Hwf as [ND F].
    assert (optionxform k = k) as Hk.
    { rewrite Forall_forall in F. apply F. rewrite Hd.
      unfold od_keys. rewrite map_app. apply in_or_app. right. now left. }
    assert (od_get k acc = None) as Habs.
    { apply od_get_None. intros Hin. rewrite Hd in ND.
      unfold od_keys in ND. rewrite map_app in ND. simpl in ND.
      apply NoDup_remove_2 in ND. apply ND. apply in_or_app. now left. }
    assert (od_get k (_defaults c) = Some v) as Hget.
    { apply od_get_NoDup_In; auto. rewrite Hd. apply in_or_app.
      right. now left. }
    assert (proxy_getitem c (text "default") k = Returned v) as ->.
    { unfold proxy_getitem, has_option, get, _unify_values.
      change (text "default") with ("d"%char :: text "efault") at 1.
      cbv iota.
      destruct (str_eq_dec _ default_section); [discriminate|].
      rewrite Hacc, Hk. unfold od_mem at 2. rewrite Hget.
      rewrite orb_true_r. simpl. rewrite Habs, Hget.
      now apply before_get_percent_free. }
    simpl.
    rewrite (assign_section c _ k v acc); auto;
      [|now apply settable_percent_free|discriminate|discriminate].
    simpl. rewrite Hk, (od_set_absent _ _ _ Habs).
    rewrite (IH _ (acc ++ [(k, v)])); simpl; auto.
    + now rewrite od_set_set, <- app_assoc.
    + now rewrite <- app_assoc.
    + split; auto.
    + apply od_get_set_same.
Qed.

Lemma set_default_update_self (c : Config) :
  wf_configP c ->
  percent_free (_defaults c) = true ->
  set_default_update c (text "default")
  = Returned (mkConfig (_defaults c) (recreated (_sections c) (_defaults c))).
Proof.
  intros Hwf Hpf.
  assert (NoDup (od_keys (_sections c))) as ND by apply Hwf.
  unfold set_default_update. rewrite recreate_default_then by exact ND.
  unfold __getitem__, has_section, od_mem. simpl.
  destruct (str_eq_dec (text "default") default_section); [discriminate|].
  rewrite od_get_recreated_default by exact ND. simpl.
  unfold _options, options.
  destruct (str_eq_dec (text "default") default_section); [discriminate|].
  simpl. rewrite od_get_recreated_default by exact ND. simpl.
  rewrite (od_update_fresh (_defaults c) []) by apply Hwf. simpl.
  rewrite (copy_keys_self (_defaults c) _ []); simpl; auto.
  - now rewrite od_set_recreated.
  - apply Hwf.
  - now apply od_get_recreated_default.
Qed.

(** C10 (amended).  For a store with a [default] section,
    [set_default("default")] returns with the backup made and the new
    store written; the [default] section of that store holds the options
    of the [DEFAULT] section of the file and nothing else, so it has no
    entries when there is no such option; the options it held before are
    lost unless [DEFAULT] has them, and every other section is as
    loaded. *)
Theorem set_default_self_alias (config loaded : Config) (fs : files)
  (content : str) :
  wf_config config = true ->
  load config fs = Returned loaded ->
  credentials fs = Some content ->
  has_section loaded (text "default") = true ->
  percent_free (_defaults loaded) = true ->
  exists config',
    set_default config fs (text "default")
    = Returns tt config' (mkFiles (Some (write config')) (Some content))
    /\ od_get (text "default") (_sections config')
       = Some (_defaults loaded)
    /\ (_defaults loaded = [] ->
        od_get (text "default") (_sections config') = Some [])
    /\ (forall other, other <> text "default" ->
          od_get other (_sections config')
          = od_get other (_sections loaded)).
Proof.
  intros Hwf Hl Hc Hs Hpf.
  assert (wf_configP loaded) as Hwl.
  { apply wf_config_iff. eapply read_wf; eauto. }
  assert (NoDup (od_keys (_sections loaded))) as ND by apply Hwl.
  exists (mkConfig (_defaults loaded)
            (recreated (_sections loaded) (_defaults loaded))).
  split; [|split; [|split]].
  - unfold set_default, set_default_io. rewrite Hl.
    unfold __contains__.
    destruct (str_eq_dec (text "default") default_section); [discriminate|].
    rewrite Hs. simpl. unfold shutil_copy. rewrite Hc.
    now rewrite set_default_update_self.
  - simpl. now apply od_get_recreated_default.
  - intros E. simpl. rewrite E. now apply od_get_recreated_default.
  - intros other Ho. simpl. now apply od_get_recreated_other.
Qed.

Lemma set_default_self_alias_witness :
  let fs := mkFiles (file_of ["[default]"; "k = v"; "[work]"; "a = 1"])
              None in
  let loaded :=
    mkConfig []
      [(text "default", [(text "k", text "v")]);
       (text "work", [(text "a", text "1")])] in
  wf_config ConfigParser.empty = true
  /\ load ConfigParser.empty fs = Returned loaded
  /\ has_section loaded (text "default") = true
  /\ exists config',
       set_default ConfigParser.empty fs (text "default")
       = Returns tt config'
           (mkFiles (Some (write config')) (credentials fs))
       /\ od_get (text "default") (_sections config') = Some [].
Proof.
  split; [reflexivity|]. split; [reflexivity|]. split; [reflexivity|].
  destruct (set_default_self_alias ConfigParser.empty
              (mkConfig []
                 [(text "default", [(text "k", text "v")]);
                  (text "work", [(text "a", text "1")])])
              (mkFiles (file_of ["[default]"; "k = v"; "[work]"; "a = 1"])
                 None)
              _ eq_refl eq_refl eq_refl eq_refl eq_refl)
    as (config' & Hcall & Hdefault & _).
  exists config'. split; [exact Hcall|exact Hdefault].
Defined.

(** C10, as stated, fails: when the file has a [DEFAULT] section with an
    option, the [default] section is not empty after
    [set_default("default")]; it holds that option. *)
Lemma set_default_self_alias_counterexample :
  let fs := mkFiles (file_of ["[DEFAULT]"; "region = eu"; "[default]";
                              "k = v"]) None in
  exists loaded config' fs',
    load ConfigParser.empty fs = Returned loaded
    /\ has_section loaded (text "default") = true
    /\ set_default ConfigParser.empty fs (text "default")
       = Returns tt config' fs'
    /\ od_get (text "default") (_sections config')
       = Some [(text "region", text "eu")]
    /\ credentials fs'
       = file_of ["[DEFAULT]"; "region = eu"; ""; "[default]";
                  "region = eu"; ""].
Proof. do 3 eexists. repeat split. Qed.

(** ** Whitespace at the ends of a text *)

Lemma lstrip_head (c : ascii) (t : str) :
  isspace c = false -> lstrip (c :: t) = c :: t.
Proof. intros H. simpl. now rewrite H. Qed.

Lemma lstrip_space (c : ascii) (t : str) :
  isspace c = true -> lstrip (c :: t) = lstrip t.
Proof. intros H. simpl. now rewrite H. Qed.

Lemma rstrip_snoc (s : str) (c : ascii) :
  isspace c = false -> rstrip (s ++ [c]) = s ++ [c].
Proof.
  intros H. unfold rstrip. rewrite rev_app_distr. simpl.
  rewrite H. simpl. now rewrite rev_involutive.
Qed.

Lemma rstrip_snoc_space (s : str) (c : ascii) :
  isspace c = true -> rstrip (s ++ [c]) = rstrip s.
Proof.
  intros H. unfold rstrip. rewrite rev_app_distr. simpl. now rewrite H.
Qed.

Lemma rstrip_nil : rstrip [] = [].
Proof. reflexivity. Qed.

Lemma lstrip_length (s : str) : List.length (lstrip s) <= List.length s.
Proof.
  induction s as [|c t IH]; simpl; auto.
  destruct (isspace c); simpl; lia.
Qed.

Lemma lstrip_fixed (s : str) :
  List.length (lstrip s) = List.length s -> lstrip s = s.
Proof.
  destruct s as [|c t]; simpl; auto.
  destruct (isspace c); auto.
  pose proof (lstrip_length t). simpl. lia.
Qed.

Lemma lstrip_starts (s : str) :
  lstrip s = [] \/ exists c t, lstrip s = c :: t /\ isspace c = false.
Proof.
  induction s as [|c t IH]; simpl; auto.
  destruct (isspace c) eqn:E; auto. right. eauto.
Qed.

Lemma rstrip_length (s : str) : List.length (rstrip s) <= List.length s.
Proof.
  unfold rstrip. rewrite length_rev.
  pose proof (lstrip_length (rev s)). now rewrite length_rev in H.
Qed.

Lemma rstrip_fixed (s : str) :
  List.length (rstrip s) = List.length s -> rstrip s = s.
Proof.
  unfold rstrip. rewrite length_rev. intros H.
  rewrite lstrip_fixed; [apply rev_involutive|].
  now rewrite length_rev.
Qed.

Lemma rstrip_ends (s : str) :
  rstrip s = [] \/ exists t c, rstrip s = t ++ [c] /\ isspace c = false.
Proof.
  unfold rstrip. destruct (lstrip_starts (rev s)) as [E|(c & t & E & Hc)].
  - left. now rewrite E.
  - right. exists (rev t), c. rewrite E. simpl. auto.
Qed.

(** A text that [strip] leaves as it is, is empty or has a character
    other than whitespace at each end. *)
Lemma strip_fixed_ends (s : str) :
  strip s = s ->
  s = []
  \/ (exists c t, s = c :: t /\ isspace c = false)
     /\ (exists t c, s = t ++ [c] /\ isspace c = false).
Proof.
  intros H. destruct s as [|c0 t0]; auto. right.
  unfold strip in H.
  assert (lstrip (c0 :: t0) = c0 :: t0) as Hl.
  { apply lstrip_fixed. apply Nat.le_antisymm; [apply lstrip_length|].
    rewrite <- H at 1. apply rstrip_length. }
  split.
  - destruct (lstrip_starts (c0 :: t0)) as [E|(c & t & E & Hc)];
      rewrite Hl in E; [discriminate|]. eauto.
  - rewrite Hl in H.
    destruct (rstrip_ends (c0 :: t0)) as [E|(t & c & E & Hc)];
      rewrite H in E; [discriminate|]. eauto.
Qed.

Lemma rstrip_fixed_ends (s : str) :
  rstrip s = s ->
  s = [] \/ exists t c, s = t ++ [c] /\ isspace c = false.
Proof.
  intros H. destruct (rstrip_ends s) as [E|(t & c & E & Hc)];
    rewrite H in E; eauto.
Qed.

Lemma strip_ends (c : ascii) (t : str) (t' : str) (c' : ascii) :
  c :: t = t' ++ [c'] -> isspace c = false -> isspace c' = false ->
  strip (c :: t) = c :: t.
Proof.
  intros E Hc Hc'. unfold strip. rewrite lstrip_head by exact Hc.
  rewrite E. now apply rstrip_snoc.
Qed.

Lemma trimmed_iff (s : str) : trimmed s = true <-> strip s = s.
Proof. apply str_eqb_true. Qed.

Lemma first_nonspace_head (c : ascii) (t : str) :
  isspace c = false -> first_nonspace (c :: t) = 0.
Proof.
  intros H. unfold first_nonspace. rewrite lstrip_head by exact H.
  apply Nat.sub_diag.
Qed.

(** ** Lines *)

Lemma split_lines_not_nil (v : str) : split_lines v <> [].
Proof.
  destruct v as [|c t]; simpl; [discriminate|].
  destruct (Ascii.eqb c LF); [discriminate|].
  destruct (split_lines t); discriminate.
Qed.

Lemma split_lines_no_LF (v : str) :
  Forall (fun l => ~ In LF l) (split_lines v).
Proof.
  induction v as [|c t IH]; simpl.
  - repeat constructor. auto.
  - destruct (Ascii.eqb c LF) eqn:E.
    + constructor; auto.
    + destruct (split_lines t) as [|l ls]; inversion IH; subst.
      * repeat constructor. intros [H|[]]. subst.
        now rewrite Ascii.eqb_refl in E.
      * constructor; auto. intros [H|H]; auto.
        subst. now rewrite Ascii.eqb_refl in E.
Qed.

Lemma join_split_lines (v : str) : join_lines (split_lines v) = v.
Proof.
  induction v as [|c t IH]; simpl; auto.
  destruct (Ascii.eqb c LF) eqn:E.
  - apply Ascii.eqb_eq in E. subst.
    pose proof (split_lines_not_nil t).
    destruct (split_lines t) eqn:Et; [congruence|].
    simpl in *. now rewrite IH.
  - destruct (split_lines t) as [|l ls] eqn:Et.
    + now apply split_lines_not_nil in Et.
    + destruct ls; simpl in *; now rewrite <- IH.
Qed.

Lemma join_lines_snoc_empty (ls : list str) :
  ls <> [] -> join_lines (ls ++ [[]]) = join_lines ls ++ [LF].
Proof.
  induction ls as [|l ls IH]; [congruence|]. intros _.
  destruct ls as [|l' ls'].
  - simpl. reflexivity.
  - change (join_lines ((l :: l' :: ls') ++ [[]]))
      with (l ++ LF :: join_lines ((l' :: ls') ++ [[]])).
    rewrite IH by discriminate.
    change (join_lines (l :: l' :: ls'))
      with (l ++ LF :: join_lines (l' :: ls')).
    now rewrite <- app_assoc.
Qed.

(** [indent_newlines] puts a tabulation in front of every line after
    the first. *)
Lemma indent_newlines_lines (v : str) :
  indent_newlines v
  = hd [] (split_lines v)
    ++ List.concat (map (fun l => LF :: TAB :: l) (tl (split_lines v))).
Proof.
  induction v as [|c t IH]; simpl; auto.
  destruct (Ascii.eqb c LF) eqn:E.
  - simpl. rewrite IH.
    pose proof (split_lines_not_nil t).
    destruct (split_lines t); [congruence|]. reflexivity.
  - rewrite IH.
    pose proof (split_lines_not_nil t).
    destruct (split_lines t); [congruence|]. reflexivity.
Qed.

Lemma iter_lines_line (l rest : str) :
  ~ In LF l -> iter_lines (l ++ LF :: rest) = l :: iter_lines rest.
Proof.
  induction l as [|c t IH]; intros H; simpl.
  - reflexivity.
  - destruct (Ascii.eqb c LF) eqn:E.
    + apply Ascii.eqb_eq in E. subst. exfalso. apply H. now left.
    + rewrite IH; [reflexivity|]. intros Hin. apply H. now right.
Qed.

Lemma iter_lines_unlines (ls : list str) :
  Forall (fun l => ~ In LF l) ls -> iter_lines (unlines ls) = ls.
Proof.
  unfold unlines. induction ls as [|l ls IH]; intros H; simpl; auto.
  inversion H; subst. rewrite <- app_assoc. simpl.
  rewrite iter_lines_line by assumption. now rewrite IH.
Qed.

Lemma unlines_app (a b : list str) : unlines (a ++ b) = unlines a ++ unlines b.
Proof.
  unfold unlines. now rewrite map_app, concat_app.
Qed.

Lemma universal_newlines_id (s : str) :
  contains CR s = false -> universal_newlines s = s.
Proof.
  unfold contains. induction s as [|c t IH]; simpl; auto.
  rewrite orb_false_iff. intros [Hc Ht].
  rewrite Ascii.eqb_sym, Hc. now rewrite IH.
Qed.

Lemma contains_app (c : ascii) (a b : str) :
  contains c (a ++ b) = contains c a || contains c b.
Proof. unfold contains. apply existsb_app. Qed.

Lemma contains_In (c : ascii) (s : str) : contains c s = false <-> ~ In c s.
Proof.
  unfold contains. split.
  - intros H Hin.
    assert (existsb (Ascii.eqb c) s = true) as E.
    { apply existsb_exists. exists c. split; auto. apply Ascii.eqb_refl. }
    congruence.
  - intros H. destruct (existsb (Ascii.eqb c) s) eqn:E; auto.
    apply existsb_exists in E as (x & Hx & Ex).
    apply Ascii.eqb_eq in Ex. subst. contradiction.
Qed.

(** ** The text that write makes, line by line *)

Lemma concat_indented (ls : list str) :
  List.concat (map (fun l => LF :: TAB :: l) ls) ++ [LF]
  = LF :: unlines (map (cons TAB) ls).
Proof.
  unfold unlines. induction ls as [|l ls IH]; simpl; auto.
  rewrite <- app_assoc, IH. simpl. now rewrite <- app_assoc.
Qed.

Lemma write_entry_lines (kv : str * str) :
  fst kv ++ text " = " ++ indent_newlines (snd kv) ++ [LF]
  = unlines (entry_lines kv).
Proof.
  destruct kv as [k v]. unfold entry_lines, option_line.
  cbn [fst snd]. rewrite indent_newlines_lines.
  rewrite <- (app_assoc (hd [] (split_lines v))), concat_indented.
  set (h := hd [] (split_lines v)).
  set (u := unlines (map (cons TAB) (tl (split_lines v)))).
  change (unlines ((k ++ text " = " ++ h)
                   :: map (cons TAB) (tl (split_lines v))))
    with (((k ++ text " = " ++ h) ++ [LF]) ++ u).
  now rewrite <- !app_assoc.
Qed.

Lemma unlines_flat_map {A} (f : A -> list str) (l : list A) :
  unlines (flat_map f l) = List.concat (map (fun x => unlines (f x)) l).
Proof.
  induction l as [|x l IH]; simpl; auto.
  now rewrite unlines_app, IH.
Qed.

Lemma write_section_lines (n : str) (d : odict str) :
  _write_section n d = unlines (section_lines n d).
Proof.
  unfold _write_section, section_lines.
  change (unlines (?a :: ?b)) with ((a ++ [LF]) ++ unlines b).
  rewrite unlines_app, unlines_flat_map.
  change (unlines [[]]) with [LF].
  assert (("["%char :: n ++ ["]"%char; LF])
          = ("["%char :: n ++ ["]"%char]) ++ [LF]) as ->.
  { cbn [app]. f_equal. now rewrite <- app_assoc. }
  do 3 f_equal. apply map_ext. intros kv. apply write_entry_lines.
Qed.

Lemma write_lines (S : Config) : write S = unlines (store_lines S).
Proof.
  unfold write, store_lines. rewrite unlines_app, unlines_flat_map.
  f_equal.
  - destruct (_defaults S); [reflexivity|apply write_section_lines].
  - f_equal. apply map_ext. intros s. apply write_section_lines.
Qed.

(** ** What validity gives *)

Lemma no_breaks_plain (s : str) : no_breaks s = true -> plain s.
Proof.
  unfold no_breaks, plain.
  rewrite andb_true_iff, !negb_true_iff, !contains_In. tauto.
Qed.

Lemma valid_key_spec (k : str) :
  valid_key k = true ->
  k <> [] /\ optionxform k = k /\ strip k = k /\ plain k
  /\ existsb is_delimiter k = false /\ comment_start k = false.
Proof.
  unfold valid_key. rewrite !andb_true_iff, !negb_true_iff.
  intros [[[[[H1 H2] H3] H4] H5] H6].
  repeat split; auto.
  - intros ->. now rewrite str_eqb_refl in H1.
  - now apply str_eqb_true.
  - now apply trimmed_iff.
  - now apply no_breaks_plain.
  - now apply no_breaks_plain.
Qed.

Lemma valid_value_spec (v : str) :
  valid_value v = true ->
  Forall (fun l => ~ In CR l /\ strip l = l) (split_lines v)
  /\ Forall (fun l => comment_start l = false) (tl (split_lines v))
  /\ rstrip v = v.
Proof.
  unfold valid_value. rewrite !andb_true_iff, !forallb_forall, !Forall_forall.
  intros [[H1 H2] H3]. split; [|split].
  - intros l Hl. specialize (H1 l Hl). unfold valid_line in H1.
    apply andb_true_iff in H1 as [Ha Hb].
    apply negb_true_iff, contains_In in Ha.
    apply trimmed_iff in Hb. auto.
  - intros l Hl. now apply negb_true_iff, H2.
  - now apply str_eqb_true.
Qed.

Lemma valid_name_spec (n : str) :
  valid_name n = true -> n <> [] /\ plain n /\ n <> default_section.
Proof.
  unfold valid_name. rewrite !andb_true_iff, !negb_true_iff.
  intros [[H1 H2] H3]. repeat split.
  - intros ->. now rewrite str_eqb_refl in H1.
  - now apply no_breaks_plain.
  - now apply no_breaks_plain.
  - intros ->. now rewrite str_eqb_refl in H3.
Qed.

Lemma valid_dict_spec (d : odict str) :
  valid_dict d = true ->
  NoDup (od_keys d) /\ Forall (fun kv => valid_entry kv = true) d.
Proof.
  unfold valid_dict. rewrite andb_true_iff, nodupb_NoDup, forallb_forall,
    Forall_forall. tauto.
Qed.

Lemma valid_entry_spec (kv : str * str) :
  valid_entry kv = true ->
  valid_key (fst kv) = true /\ valid_value (snd kv) = true
  /\ SECTCRE_match (strip (option_line (fst kv) (snd kv))) = None.
Proof.
  unfold valid_entry. rewrite !andb_true_iff.
  intros [[H1 H2] H3]. repeat split; auto.
  destruct (SECTCRE_match _); [discriminate|reflexivity].
Qed.

Lemma plain_app (a b : str) : plain a -> plain b -> plain (a ++ b).
Proof.
  unfold plain. intros [H1 H2] [H3 H4].
  split; intros H; apply in_app_or in H; tauto.
Qed.

Lemma plain_hd_split_lines (v : str) :
  valid_value v = true -> Forall plain (split_lines v).
Proof.
  intros H. apply valid_value_spec in H as (H & _ & _).
  pose proof (split_lines_no_LF v) as HL.
  rewrite Forall_forall in *. intros l Hl. split; [now apply HL|].
  now apply H.
Qed.

Lemma entry_lines_plain (kv : str * str) :
  valid_entry kv = true -> Forall plain (entry_lines kv).
Proof.
  intros H. apply valid_entry_spec in H as (Hk & Hv & _).
  apply valid_key_spec in Hk as (_ & _ & _ & Hp & _).
  apply plain_hd_split_lines in Hv.
  unfold entry_lines, option_line.
  pose proof (split_lines_not_nil (snd kv)).
  destruct (split_lines (snd kv)) as [|l0 ls]; [congruence|].
  inversion Hv; subst. simpl. constructor.
  - apply plain_app; auto. destruct H2 as [A B].
    split; intros [E|[E|[E|E]]]; try discriminate; auto.
  - rewrite Forall_map. rewrite Forall_forall in *. intros l Hl.
    destruct (H3 l Hl) as [Ha Hb].
    split; intros [E|E]; try discriminate; auto.
Qed.

Lemma section_lines_plain (n : str) (d : odict str) :
  plain n -> Forall (fun kv => valid_entry kv = true) d ->
  Forall plain (section_lines n d).
Proof.
  intros Hn Hd. unfold section_lines. constructor.
  - destruct Hn as [H1 H2].
    split; intros [E|E]; try discriminate;
      apply in_app_or in E as [E|[E|[]]]; try discriminate; auto.
  - apply Forall_app. split.
    + apply Forall_flat_map. rewrite Forall_forall in *.
      intros kv Hkv. now apply entry_lines_plain, Hd.
    + repeat constructor; intros [].
Qed.

Lemma plain_default_section : plain default_section.
Proof.
  split; intros H; repeat (destruct H as [H|H]; [discriminate|]);
    destruct H.
Qed.

Lemma valid_store_spec (S : Config) :
  valid_store S = true ->
  valid_dict (_defaults S) = true
  /\ NoDup (sections S)
  /\ Forall (fun s => valid_name (fst s) = true
                      /\ valid_dict (snd s) = true) (_sections S).
Proof.
  unfold valid_store.
  rewrite !andb_true_iff, nodupb_NoDup, forallb_forall, Forall_forall.
  intros [[H1 H2] H3]. repeat split; auto;
    specialize (H3 _ H); apply andb_true_iff in H3; tauto.
Qed.

Lemma store_lines_plain (S : Config) :
  valid_store S = true -> Forall plain (store_lines S).
Proof.
  intros H. apply valid_store_spec in H as (Hd & _ & Hs).
  unfold store_lines. apply Forall_app. split.
  - apply valid_dict_spec in Hd as [_ Hd].
    destruct (_defaults S) eqn:E; [constructor|]. rewrite <- E in *.
    apply section_lines_plain; [apply plain_default_section|exact Hd].
  - apply Forall_flat_map. rewrite Forall_forall in *.
    intros [n d] Hin. destruct (Hs _ Hin) as [Hn Hv]. simpl in *.
    apply section_lines_plain.
    + now apply valid_name_spec in Hn.
    + now apply valid_dict_spec.
Qed.

Lemma contains_CR_unlines (ls : list str) :
  Forall plain ls -> contains CR (unlines ls) = false.
Proof.
  unfold unlines. induction ls as [|l ls IH]; intros H; simpl; auto.
  inversion H as [|? ? [_ Hl] Hls]; subst.
  rewrite !contains_app, IH by assumption.
  apply contains_In in Hl. rewrite Hl. reflexivity.
Qed.

(** The file of a valid store reads as the lines [store_lines]. *)
Lemma file_lines_of_store (S : Config) :
  valid_store S = true ->
  iter_lines (universal_newlines (write S)) = store_lines S.
Proof.
  intros H. apply store_lines_plain in H.
  rewrite write_lines, universal_newlines_id
    by now apply contains_CR_unlines.
  apply iter_lines_unlines.
  rewrite Forall_forall in *. intros l Hl. now apply H.
Qed.

(** ** The dictionary that [cursect] stands for *)

Lemma has_section_set {V} (p : config_of V) (n m : str) (d : odict V) :
  has_section p n = true ->
  has_section (mkConfig (_defaults p) (od_set n d (_sections p))) m
  = has_section p m.
Proof.
  unfold has_section, od_mem. simpl. intros H.
  destruct (str_eq_dec m n) as [->|N].
  - rewrite od_get_set_same. exact (eq_sym H).
  - now rewrite od_get_set_other.
Qed.

Lemma has_section_cursect_set {V} (p : config_of V) (r : sectref)
  (k m : str) (v : V) :
  has_section (cursect_set p r k v) m = has_section p m.
Proof.
  destruct r as [|n]; simpl; auto.
  destruct (od_get n (_sections p)) as [d|] eqn:E; auto.
  apply has_section_set. unfold has_section, od_mem. now rewrite E.
Qed.

Lemma ref_ok_cursect_set {V} (p : config_of V) (r r' : sectref) (k : str)
  (v : V) :
  ref_ok p r -> ref_ok (cursect_set p r' k v) r.
Proof.
  destruct r as [|n]; simpl; auto.
  now rewrite has_section_cursect_set.
Qed.

Lemma cursect_get_set_same {V} (p : config_of V) (r : sectref) (k : str)
  (v : V) :
  ref_ok p r -> cursect_get (cursect_set p r k v) r k = Some v.
Proof.
  destruct r as [|n]; simpl; intros H.
  - apply od_get_set_same.
  - apply has_section_get in H as [d Hd]. rewrite Hd. simpl.
    rewrite od_get_set_same. apply od_get_set_same.
Qed.

Lemma cursect_set_set {V} (p : config_of V) (r : sectref) (k : str)
  (v v' : V) :
  cursect_set (cursect_set p r k v) r k v' = cursect_set p r k v'.
Proof.
  destruct r as [|n]; simpl.
  - now rewrite od_set_set.
  - destruct (od_get n (_sections p)) as [d|] eqn:E; simpl.
    + now rewrite od_get_set_same, !od_set_set.
    + now rewrite E.
Qed.

(** ** One line of a written file *)

Lemma upto_last_snoc (c : ascii) (s : str) :
  upto_last c (s ++ [c]) = Some s.
Proof.
  induction s as [|x t IH]; simpl.
  - now rewrite Ascii.eqb_refl.
  - now rewrite IH.
Qed.

Lemma header_line_facts (n : str) :
  n <> [] ->
  let line := "["%char :: n ++ ["]"%char] in
  strip line = line /\ is_comment line = false
  /\ first_nonspace line = 0 /\ SECTCRE_match line = Some n.
Proof.
  intros Hn line.
  assert (strip line = line) as Hs.
  { apply (strip_ends _ _ ("["%char :: n) "]"%char); reflexivity. }
  split; [exact Hs|]. split; [|split].
  - unfold is_comment. rewrite Hs. reflexivity.
  - now apply first_nonspace_head.
  - unfold SECTCRE_match, line.
    change (Ascii.eqb "[" "[") with true. cbv iota.
    rewrite upto_last_snoc. destruct n; [congruence|reflexivity].
Qed.

Lemma split_delimiter_app (a b : str) (c : ascii) :
  existsb is_delimiter a = false -> is_delimiter c = true ->
  split_delimiter (a ++ c :: b) = Some (a, b).
Proof.
  intros Ha Hc. induction a as [|x t IH]; simpl in *.
  - now rewrite Hc.
  - apply orb_false_iff in Ha as [Hx Ht]. rewrite Hx, (IH Ht). reflexivity.
Qed.

Lemma existsb_snoc {A} (f : A -> bool) (l : list A) (x : A) :
  existsb f (l ++ [x]) = existsb f l || f x.
Proof. rewrite existsb_app. simpl. now rewrite orb_false_r. Qed.

(** The first line written for an option reads back as the option. *)
Lemma option_line_facts (k l0 : str) :
  valid_key k = true -> strip l0 = l0 ->
  let line := k ++ text " = " ++ l0 in
  strip line <> [] /\ is_comment line = false /\ first_nonspace line = 0
  /\ OPTCRE_match (strip line) = Some (k, l0).
Proof.
  intros Hk Hl line.
  apply valid_key_spec in Hk as (Hne & _ & Hks & _ & Hd & Hcs).
  destruct (strip_fixed_ends k Hks)
    as [->|[(ck & tk & Ek & Hck) (tk' & ck' & Ek' & Hck')]]; [congruence|].
  assert (rstrip (k ++ [" "%char]) = k) as Hrk.
  { rewrite rstrip_snoc_space by reflexivity.
    rewrite Ek'. now apply rstrip_snoc. }
  assert (existsb is_delimiter (k ++ [" "%char]) = false) as Hdk.
  { rewrite existsb_snoc, Hd. reflexivity. }
  assert (lstrip line = line) as Hll.
  { unfold line. rewrite Ek. simpl. now rewrite Hck. }
  assert (exists sl rest,
             strip line = sl
             /\ sl = (k ++ [" "%char]) ++ "="%char :: rest
             /\ lstrip rest = l0) as (sl & rest & Es & Esl & Er).
  { unfold strip. rewrite Hll.
    destruct (strip_fixed_ends l0 Hl)
      as [->|[(cl & tl & El & Hcl) (tl' & cl' & El' & Hcl')]].
    - exists ((k ++ [" "%char]) ++ ["="%char]), []. split; [|split; auto].
      unfold line.
      change (k ++ text " = " ++ [])
        with (k ++ [" "%char; "="%char; " "%char]).
      replace (k ++ [" "%char; "="%char; " "%char])
        with (((k ++ [" "%char]) ++ ["="%char]) ++ [" "%char])
        by now rewrite <- !app_assoc.
      rewrite rstrip_snoc_space by reflexivity.
      now apply rstrip_snoc.
    - exists line, (" "%char :: l0). split; [|split].
      + unfold line. rewrite El'.
        replace (k ++ text " = " ++ tl' ++ [cl'])
          with ((k ++ text " = " ++ tl') ++ [cl'])
          by now rewrite <- !app_assoc.
        now apply rstrip_snoc.
      + unfold line. now rewrite <- app_assoc.
      + rewrite lstrip_space by reflexivity.
        rewrite El. now apply lstrip_head. }
  split; [|split; [|split]].
  - rewrite Es, Esl. rewrite Ek. discriminate.
  - unfold is_comment. rewrite Es, Esl, Ek. simpl.
    unfold comment_start in Hcs. rewrite Ek in Hcs. exact Hcs.
  - unfold line. rewrite Ek. now apply first_nonspace_head.
  - rewrite Es, Esl. unfold OPTCRE_match.
    rewrite split_delimiter_app by (auto; reflexivity).
    now rewrite Hrk, Er.
Qed.

(** A line written for the continuation of a value. *)
Lemma continuation_line_facts (l : str) :
  strip l = l -> comment_start l = false ->
  strip (TAB :: l) = l /\ is_comment (TAB :: l) = false
  /\ (l <> [] -> first_nonspace (TAB :: l) = 1).
Proof.
  intros Hl Hc.
  assert (strip (TAB :: l) = l) as Hs.
  { unfold strip. rewrite lstrip_space by reflexivity. exact Hl. }
  split; [exact Hs|]. split.
  - unfold is_comment. rewrite Hs. exact Hc.
  - intros Hne. unfold first_nonspace.
    rewrite lstrip_space by reflexivity.
    destruct (strip_fixed_ends l Hl) as [->|[(c & t & E & Hcn) _]];
      [congruence|].
    rewrite E, lstrip_head by exact Hcn.
    cbn [List.length]. lia.
Qed.

(** ** The reader on the lines of a written file *)

Lemma read_lines_app (a b : list str) (st : reader) :
  read_lines (a ++ b) st = (st' <- read_lines a st ;; read_lines b st').
Proof.
  revert st. induction a as [|l a IH]; intros st; simpl; auto.
  destruct (read_line st l); simpl; auto.
Qed.

Lemma append_value_list (st : reader) (r : sectref) (k value : str)
  (ls : list str) :
  cursect st = Some r -> optname st = Some k ->
  cursect_get (parser st) r k = Some (PList ls) ->
  append_value st value
  = Returned (with_parser st
                (cursect_set (parser st) r k (PList (ls ++ [value])))).
Proof.
  intros Hc Ho Hg. unfold append_value, with_parser.
  now rewrite Hc, Ho, Hg.
Qed.

Lemma read_option_line (st : reader) (r : sectref) (k l0 : str) :
  cursect st = Some r ->
  valid_key k = true -> strip l0 = l0 ->
  SECTCRE_match (strip (k ++ text " = " ++ l0)) = None ->
  in_options (sectname st, k) (added_options st) = false ->
  read_line st (k ++ text " = " ++ l0) = Returned (after_option st r k [l0]).
Proof.
  intros Hc Hk Hl Hs Hfresh.
  destruct (option_line_facts k l0 Hk Hl) as (Hne & Hcm & Hin & Hopt).
  apply valid_key_spec in Hk as (Hkne & Hkx & Hks & _).
  unfold read_line. rewrite Hcm, Hin.
  destruct (strip (k ++ text " = " ++ l0)) as [|c value] eqn:Es;
    [congruence|].
  rewrite Nat.ltb_irrefl || (replace (indent_level st <? 0) with false
                             by (symmetry; apply Nat.ltb_ge; lia)).
  rewrite andb_false_r, Hs, Hc.
  unfold read_option. rewrite Hopt.
  assert (rstrip k = k) as Hrk.
  { destruct (strip_fixed_ends k Hks) as [->|[_ (t & c' & E & Hc')]];
      [reflexivity|]. rewrite E. now apply rstrip_snoc. }
  rewrite Hrk, Hkx, Hfresh, Hl.
  unfold after_option. rewrite Hc.
  destruct k; [congruence|]. now rewrite orb_false_r.
Qed.

Lemma read_blank_line (st : reader) :
  read_line st []
  = if match cursect st with Some _ => true | None => false end
       && truthy (optname st)
    then append_value st []
    else Returned st.
Proof. reflexivity. Qed.

Lemma read_continuation_line (st : reader) (r : sectref) (k l : str)
  (ls : list str) :
  cursect st = Some r -> optname st = Some k -> k <> [] ->
  indent_level st = 0 ->
  cursect_get (parser st) r k = Some (PList ls) ->
  strip l = l -> comment_start l = false ->
  read_line st (TAB :: l)
  = Returned (with_parser st
                (cursect_set (parser st) r k (PList (ls ++ [l])))).
Proof.
  intros Hc Ho Hk Hi Hg Hl Hcm.
  destruct (continuation_line_facts l Hl Hcm) as (Hs & Hic & Hfn).
  unfold read_line. rewrite Hic, Hs, Hc, Ho.
  assert (truthy (Some k) = true) as ->
    by (destruct k; [congruence|reflexivity]).
  destruct l as [|c t].
  - simpl. now apply append_value_list.
  - rewrite Hfn by discriminate. rewrite Hi. simpl.
    now apply append_value_list.
Qed.

Lemma read_continuation_lines (rest : list str) :
  forall (st : reader) (r : sectref) (k : str) (ls : list str),
  cursect st = Some r -> optname st = Some k -> k <> [] ->
  indent_level st = 0 -> ref_ok (parser st) r ->
  cursect_get (parser st) r k = Some (PList ls) ->
  Forall (fun l => strip l = l /\ comment_start l = false) rest ->
  read_lines (map (cons TAB) rest) st
  = Returned (with_parser st
                (cursect_set (parser st) r k (PList (ls ++ rest)))).
Proof.
  induction rest as [|l rest IH]; intros st r k ls Hc Ho Hk Hi Hr Hg HF.
  - simpl. rewrite app_nil_r.
    destruct r as [|n]; simpl in *.
    + rewrite od_set_same_value by exact Hg. now destruct st, parser0.
    + destruct (od_get n (_sections (parser st))) as [d|] eqn:E;
        [|now destruct st].
      rewrite (od_set_same_value d) by exact Hg.
      rewrite od_set_same_value by exact E. now destruct st, parser0.
  - inversion HF as [|? ? [Hl Hcm] HF']; subst. simpl.
    rewrite (read_continuation_line st r k l ls) by assumption. simpl.
    rewrite (IH _ r k (ls ++ [l])); auto.
    + unfold with_parser. simpl. rewrite cursect_set_set.
      now rewrite <- app_assoc.
    + simpl. now apply ref_ok_cursect_set.
    + simpl. now apply cursect_get_set_same.
Qed.

(** The lines of one option. *)
Lemma read_entry_lines (st : reader) (r : sectref) (kv : str * str) :
  cursect st = Some r -> ref_ok (parser st) r ->
  valid_entry kv = true ->
  in_options (sectname st, fst kv) (added_options st) = false ->
  read_lines (entry_lines kv) st
  = Returned (after_option st r (fst kv) (split_lines (snd kv))).
Proof.
  destruct kv as [k v]. cbn [fst snd]. intros Hc Hr Hv Hfresh.
  apply valid_entry_spec in Hv as (Hk & Hval & Hs). cbn [fst snd] in *.
  apply valid_value_spec in Hval as (Hlines & Hcms & _).
  unfold entry_lines, option_line in *. cbn [fst snd] in *.
  pose proof (split_lines_not_nil v) as Hnn.
  destruct (split_lines v) as [|l0 rest]; [congruence|]. cbn [hd tl] in *.
  inversion Hlines as [|? ? [_ Hl0] Hrest]; subst.
  cbn [read_lines].
  rewrite (read_option_line st r k l0) by assumption. cbn [bind].
  pose proof (valid_key_spec k Hk) as (Hkne & _).
  rewrite (read_continuation_lines rest _ r k [l0]); auto.
  - unfold with_parser, after_option. cbn. now rewrite cursect_set_set.
  - cbn. now apply ref_ok_cursect_set.
  - cbn. now apply cursect_get_set_same.
  - rewrite Forall_forall in *. intros l Hl. split.
    + now apply Hrest.
    + now apply Hcms.
Qed.

Lemma in_options_cons (x y : str * str) (l : list (str * str)) :
  in_options x (y :: l)
  = (str_eqb (fst x) (fst y) && str_eqb (snd x) (snd y)) || in_options x l.
Proof.
  unfold in_options, str_eqb. simpl.
  destruct (str_eq_dec (fst x) (fst y)); simpl; auto.
Qed.

Lemma str_eqb_false (a b : str) : a <> b -> str_eqb a b = false.
Proof.
  intros N. unfold str_eqb. destruct (str_eq_dec a b); congruence.
Qed.

(** The lines of all the options of a section. *)
Lemma read_entries (d : odict str) :
  forall (st : reader) (r : sectref),
  cursect st = Some r -> ref_ok (parser st) r ->
  NoDup (od_keys d) -> Forall (fun kv => valid_entry kv = true) d ->
  (forall k, In k (od_keys d) ->
     in_options (sectname st, k) (added_options st) = false) ->
  read_lines (flat_map entry_lines d) st = Returned (after_entries st r d).
Proof.
  induction d as [|[k v] d IH]; intros st r Hc Hr ND Hv Hfresh.
  - reflexivity.
  - cbn [flat_map]. rewrite read_lines_app.
    inversion ND as [|? ? Hk ND']; subst.
    inversion Hv as [|? ? Hkv Hv']; subst.
    rewrite (read_entry_lines st r (k, v)); auto;
      [|apply Hfresh; now left].
    cbn [bind fst snd]. rewrite (IH _ r); auto.
    + cbn. now apply ref_ok_cursect_set.
    + intros k' Hk'. unfold after_option. cbn [sectname added_options].
      rewrite in_options_cons. cbn [fst snd].
      rewrite (str_eqb_false k' k), andb_false_r by congruence.
      apply Hfresh. now right.
Qed.

Lemma after_entries_fields (d : odict str) :
  forall (st : reader) (r : sectref),
  cursect st = Some r ->
  let st' := after_entries st r d in
  cursect st' = Some r /\ sectname st' = sectname st /\ e st' = e st
  /\ added_sections st' = added_sections st
  /\ (forall m k, m <> sectname st ->
        in_options (m, k) (added_options st')
        = in_options (m, k) (added_options st))
  /\ (forall m, has_section (parser st') m = has_section (parser st) m).
Proof.
  induction d as [|[k v] d IH]; intros st r Hc; cbn.
  - repeat split; auto.
  - destruct (IH (after_option st r k (split_lines v)) r eq_refl)
      as (H1 & H2 & H3 & H4 & H5 & H6).
    unfold after_entries in *. cbn [fold_left fst snd] in *.
    unfold after_option in H2, H3, H4, H5, H6 at 2.
    cbn [sectname e added_sections added_options parser] in *.
    repeat split; auto.
    + intros m k' Hm. rewrite H5 by exact Hm.
      rewrite in_options_cons. cbn [fst snd].
      now rewrite (str_eqb_false m (sectname st)) by exact Hm.
    + intros m. rewrite H6. apply has_section_cursect_set.
Qed.

Lemma after_entries_snoc (st : reader) (r : sectref) (d : odict str)
  (kv : str * str) :
  after_entries st r (d ++ [kv])
  = after_option (after_entries st r d) r (fst kv) (split_lines (snd kv)).
Proof. unfold after_entries. now rewrite fold_left_app. Qed.

(** ** Joining the lines of the values *)

Lemma join_cursect_set (p : config_of pval) (r : sectref) (k : str)
  (v : pval) :
  _join_multiline_values (cursect_set p r k v)
  = cursect_set (_join_multiline_values p) r k (join_value v).
Proof.
  unfold _join_multiline_values. destruct r as [|n]; simpl.
  - now rewrite od_set_map_values.
  - rewrite od_get_map_values.
    destruct (od_get n (_sections p)) as [d|]; simpl; auto.
    now rewrite !od_set_map_values.
Qed.

Lemma join_value_split_lines (v : str) :
  rstrip v = v -> join_value (PList (split_lines v)) = v.
Proof. intros H. simpl. now rewrite join_split_lines. Qed.

Lemma join_value_blank (ls : list str) :
  ls <> [] -> join_value (PList (ls ++ [[]])) = join_value (PList ls).
Proof.
  intros H. simpl. rewrite join_lines_snoc_empty by exact H.
  now apply rstrip_snoc_space.
Qed.

Lemma cursect_set_same {V} (c : config_of V) (r : sectref) (k : str)
  (v : V) :
  cursect_get c r k = Some v -> cursect_set c r k v = c.
Proof.
  destruct r as [|n]; simpl; intros H.
  - rewrite od_set_same_value by exact H. now destruct c.
  - destruct (od_get n (_sections c)) as [d|] eqn:E; auto.
    rewrite (od_set_same_value d) by exact H.
    rewrite od_set_same_value by exact E. now destruct c.
Qed.

Lemma join_after_entries (d : odict str) :
  forall (st : reader) (r : sectref),
  Forall (fun kv => valid_entry kv = true) d ->
  _join_multiline_values (parser (after_entries st r d))
  = fold_left (fun c kv => cursect_set c r (fst kv) (snd kv)) d
      (_join_multiline_values (parser st)).
Proof.
  induction d as [|[k v] d IH]; intros st r Hv; cbn; auto.
  inversion Hv as [|? ? Hkv Hv']; subst.
  unfold after_entries in IH. rewrite IH by exact Hv'. cbn.
  rewrite join_cursect_set. f_equal. f_equal.
  apply valid_entry_spec in Hkv as (_ & Hval & _).
  apply valid_value_spec in Hval as (_ & _ & Hr). cbn in Hr.
  now apply join_value_split_lines.
Qed.

(** Storing the options of a section one by one is [od_update]. *)
Lemma fold_cursect_set_section (d : odict str) :
  forall (c : Config) (n : str) (d0 : odict str),
  od_get n (_sections c) = Some d0 ->
  fold_left (fun c kv => cursect_set c (InSection n) (fst kv) (snd kv)) d c
  = mkConfig (_defaults c) (od_set n (od_update d0 d) (_sections c)).
Proof.
  induction d as [|[k v] d IH]; intros c n d0 H; cbn.
  - rewrite od_set_same_value by exact H. now destruct c.
  - rewrite H.
    rewrite (IH _ n (od_set k v d0)) by (cbn; apply od_get_set_same).
    cbn. now rewrite od_set_set.
Qed.

Lemma fold_cursect_set_defaults (d : odict str) :
  forall (c : Config),
  fold_left (fun c kv => cursect_set c InDefaults (fst kv) (snd kv)) d c
  = mkConfig (od_update (_defaults c) d) (_sections c).
Proof.
  induction d as [|[k v] d IH]; intros c; cbn.
  - now destruct c.
  - now rewrite IH.
Qed.

(** ** One section of a written file *)

Lemma in_sections_cons (m n : str) (l : list str) :
  in_sections m (n :: l) = str_eqb m n || in_sections m l.
Proof. reflexivity. Qed.

Lemma read_header_line (st : reader) (n : str) :
  n <> [] -> read_line st ("["%char :: n ++ ["]"%char]) = read_header st 0 n.
Proof.
  intros Hn. destruct (header_line_facts n Hn) as (Hs & Hc & Hf & Hm).
  unfold read_line. rewrite Hc, Hs. cbv iota. rewrite Hf, Hm.
  replace (indent_level st <? 0) with false
    by (symmetry; apply Nat.ltb_ge; lia).
  now rewrite andb_false_r.
Qed.

Lemma has_section_join (p : config_of pval) (m : str) :
  has_section (_join_multiline_values p) m = has_section p m.
Proof.
  unfold has_section, od_mem, _join_multiline_values. simpl.
  rewrite od_get_map_values. now destruct (od_get m (_sections p)).
Qed.

(** The header of a section: [cursect] is its dictionary, and storing
    options in it one by one amounts to [store_section]. *)
Lemma read_header_effect (st : reader) (n : str) :
  in_sections n (added_sections st) = false ->
  has_section (parser st) default_section = false ->
  exists st1 r,
    read_header st 0 n = Returned st1
    /\ cursect st1 = Some r /\ ref_ok (parser st1) r
    /\ sectname st1 = n /\ optname st1 = None /\ e st1 = e st
    /\ added_options st1 = added_options st
    /\ (forall m, m <> n ->
          in_sections m (added_sections st1)
          = in_sections m (added_sections st))
    /\ has_section (parser st1) default_section = false
    /\ forall d,
         fold_left (fun c kv => cursect_set c r (fst kv) (snd kv)) d
           (_join_multiline_values (parser st1))
         = store_section (_join_multiline_values (parser st)) n d.
Proof.
  intros Hfresh Hdef. unfold read_header, store_section.
  rewrite has_section_join.
  destruct (has_section (parser st) n) eqn:Hs.
  - rewrite Hfresh. do 2 eexists. split; [reflexivity|]. cbn.
    repeat split; auto.
    + intros m Hm. destruct (str_eq_dec m n); [congruence|reflexivity].
    + intros d.
      rewrite <- has_section_join in Hs.
      apply has_section_get in Hs as [d0 Hd0].
      rewrite (fold_cursect_set_section d _ n d0) by exact Hd0.
      unfold section_or_empty. now rewrite Hd0.
  - destruct (str_eq_dec n default_section) as [->|N].
    + do 2 eexists. split; [reflexivity|]. cbn.
      repeat split; auto.
      intros d. apply fold_cursect_set_defaults.
    + do 2 eexists. split; [reflexivity|]. cbn.
      repeat split; auto.
      * unfold ref_ok, has_section, od_mem. cbn [_sections].
        now rewrite od_get_set_same.
      * intros m Hm. destruct (str_eq_dec m n); [congruence|reflexivity].
      * unfold has_section, od_mem in *. cbn [_sections].
        rewrite od_get_set_other by congruence. exact Hdef.
      * intros d.
        rewrite (fold_cursect_set_section d _ n []).
        -- unfold _join_multiline_values. cbn [_sections _defaults].
           now rewrite od_set_map_values, od_set_set.
        -- unfold _join_multiline_values. cbn [_sections _defaults].
           rewrite od_set_map_values. apply od_get_set_same.
Qed.

(** The blank line that ends a section leaves the joined values as they
    are. *)
Lemma read_closing_line (st1 : reader) (r : sectref) (d : odict str) :
  cursect st1 = Some r -> ref_ok (parser st1) r -> optname st1 = None ->
  Forall (fun kv => valid_entry kv = true) d ->
  exists st3,
    read_line (after_entries st1 r d) [] = Returned st3
    /\ _join_multiline_values (parser st3)
       = _join_multiline_values (parser (after_entries st1 r d))
    /\ e st3 = e (after_entries st1 r d)
    /\ added_sections st3 = added_sections (after_entries st1 r d)
    /\ added_options st3 = added_options (after_entries st1 r d)
    /\ forall m, has_section (parser st3) m
                 = has_section (parser (after_entries st1 r d)) m.
Proof.
  intros Hc Hr Ho Hv. rewrite read_blank_line.
  destruct (after_entries_fields d st1 r Hc) as (Hc2 & _).
  destruct d as [|kv0 d0] using rev_ind.
  - cbn. rewrite Hc, Ho. cbn. eexists. split; [reflexivity|]. auto.
  - clear IHd0. destruct kv0 as [k v].
    apply Forall_app in Hv as [Hv0 Hkv].
    inversion Hkv as [|? ? Hk _]; subst.
    apply valid_entry_spec in Hk as (Hk & _). cbn [fst snd] in Hk.
    apply valid_key_spec in Hk as (Hkne & _).
    rewrite after_entries_snoc in *. cbn [fst snd] in *.
    set (st2 := after_entries st1 r d0) in *.
    assert (ref_ok (parser st2) r) as Hr2.
    { destruct (after_entries_fields d0 st1 r Hc) as (_ & _ & _ & _ & _ & H).
      destruct r as [|n]; cbn in *; auto. fold st2 in H. now rewrite H. }
    unfold after_option at 1 2. cbn [cursect optname].
    assert (truthy (Some k) = true) as ->
      by (destruct k; [congruence|reflexivity]).
    cbn [andb].
    rewrite (append_value_list _ r k [] (split_lines v)); try reflexivity.
    + eexists. split; [reflexivity|].
      unfold with_parser, after_option.
      cbn [parser e added_sections added_options].
      split; [|repeat split; auto].
      * rewrite cursect_set_set, !join_cursect_set.
        now rewrite join_value_blank by apply split_lines_not_nil.
      * intros m. now rewrite !has_section_cursect_set.
    + unfold after_option. cbn [parser].
      now apply cursect_get_set_same.
Qed.

(** The lines of one section: the joined parser gets the options of the
    section, and nothing else of the reader changes what the sections to
    come will meet. *)
Lemma read_section_block (st : reader) (n : str) (d : odict str) :
  n <> [] -> valid_dict d = true ->
  in_sections n (added_sections st) = false ->
  (forall k, in_options (n, k) (added_options st) = false) ->
  has_section (parser st) default_section = false ->
  exists st',
    read_lines (section_lines n d) st = Returned st'
    /\ _join_multiline_values (parser st')
       = store_section (_join_multiline_values (parser st)) n d
    /\ e st' = e st
    /\ (forall m, m <> n ->
          in_sections m (added_sections st')
          = in_sections m (added_sections st))
    /\ (forall m k, m <> n ->
          in_options (m, k) (added_options st')
          = in_options (m, k) (added_options st))
    /\ has_section (parser st') default_section = false.
Proof.
  intros Hn Hd Hfs Hfo Hdef.
  apply valid_dict_spec in Hd as [ND Hv].
  destruct (read_header_effect st n Hfs Hdef)
    as (st1 & r & Hh & Hc & Hr & Hsn & Ho & He & Hao & Has & Hdef1 & Hfold).
  destruct (read_closing_line st1 r d Hc Hr Ho Hv)
    as (st3 & Hb & Hj & He3 & Has3 & Hao3 & Hhs3).
  destruct (after_entries_fields d st1 r Hc)
    as (_ & _ & He2 & Has2 & Hao2 & Hhs2).
  exists st3. split; [|split; [|split; [|split; [|split]]]].
  - unfold section_lines. cbn [read_lines].
    rewrite (read_header_line st n Hn), Hh. cbn [bind].
    rewrite read_lines_app, (read_entries d st1 r); auto.
    + cbn [bind read_lines]. rewrite Hb. reflexivity.
    + intros k _. rewrite Hsn, Hao. apply Hfo.
  - rewrite Hj, join_after_entries by exact Hv. apply Hfold.
  - now rewrite He3, He2.
  - intros m Hm. rewrite Has3, Has2. now apply Has.
  - intros m k Hm. rewrite Hao3, Hao2 by now rewrite Hsn.
    now rewrite Hao.
  - now rewrite Hhs3, Hhs2.
Qed.

(** ** Reading a written store *)

Lemma read_sections_blocks (secs : odict (odict str)) :
  forall (st : reader),
  NoDup (od_keys secs) ->
  Forall (fun s => valid_name (fst s) = true /\ valid_dict (snd s) = true)
    secs ->
  (forall n, In n (od_keys secs) ->
     in_sections n (added_sections st) = false
     /\ forall k, in_options (n, k) (added_options st) = false) ->
  has_section (parser st) default_section = false ->
  exists st',
    read_lines (flat_map (fun s => section_lines (fst s) (snd s)) secs) st
    = Returned st'
    /\ _join_multiline_values (parser st')
       = fold_left (fun c s => store_section c (fst s) (snd s)) secs
           (_join_multiline_values (parser st))
    /\ e st' = e st.
Proof.
  induction secs as [|[n d] secs IH]; intros st ND Hv Hfresh Hdef.
  - exists st. auto.
  - inversion ND as [|? ? Hn ND']; subst.
    inversion Hv as [|? ? [Hvn Hvd] Hv']; subst.
    cbn [fst snd] in *.
    destruct (valid_name_spec n Hvn) as (Hne & _ & _).
    destruct (Hfresh n (or_introl eq_refl)) as [Hfs Hfo].
    destruct (read_section_block st n d Hne Hvd Hfs Hfo Hdef)
      as (st1 & Hr & Hj & He & Has & Hao & Hdef1).
    destruct (IH st1 ND' Hv') as (st' & Hr' & Hj' & He'); auto.
    { intros m Hm.
      assert (m <> n) as Hmn by (intros ->; contradiction).
      destruct (Hfresh m (or_intror Hm)) as [H1 H2].
      split; [now rewrite Has|]. intros k. now rewrite Hao. }
    exists st'. split; [|split].
    + cbn [flat_map fst snd]. rewrite read_lines_app, Hr. exact Hr'.
    + rewrite Hj'. cbn [fold_left fst snd]. now rewrite Hj.
    + now rewrite He'.
Qed.

Lemma join_as_read_state (c : Config) :
  _join_multiline_values (as_read_state c) = c.
Proof.
  unfold _join_multiline_values, as_read_state. cbn [_defaults _sections].
  rewrite !map_values_map_values.
  rewrite map_values_id by reflexivity.
  rewrite (map_values_id (fun x => map_values join_value (map_values PStr x))).
  - now destruct c.
  - intros d. rewrite map_values_map_values. now apply map_values_id.
Qed.

(** Reading the file written from a valid store stores its sections, in
    their order, over what the parser holds. *)
Lemma read_written_store (S c : Config) :
  valid_store S = true ->
  has_section c default_section = false ->
  read (Some (write S)) c = Returned (merge_into c S).
Proof.
  intros HS Hc. unfold read, _read.
  rewrite (file_lines_of_store S HS).
  apply valid_store_spec in HS as (Hd & ND & Hs).
  set (st0 := mkReader (as_read_state c) [] [] None [] None 0 false).
  assert (has_section (parser st0) default_section = false) as Hdef0.
  { unfold st0. cbn [parser].
    rewrite <- has_section_join, join_as_read_state. exact Hc. }
  assert (exists st1,
             read_lines (match _defaults S with
                         | [] => []
                         | _ => section_lines default_section (_defaults S)
                         end) st0 = Returned st1
             /\ _join_multiline_values (parser st1)
                = match _defaults S with
                  | [] => c
                  | _ => store_section c default_section (_defaults S)
                  end
             /\ e st1 = false
             /\ (forall m, m <> default_section ->
                   in_sections m (added_sections st1) = false
                   /\ forall k, in_options (m, k) (added_options st1)
                                = false)
             /\ has_section (parser st1) default_section = false)
    as (st1 & Hr1 & Hj1 & He1 & Hf1 & Hdef1).
  { destruct (_defaults S) as [|kv0 d0] eqn:Ed.
    - exists st0. repeat split; auto. unfold st0. cbn [parser].
      apply join_as_read_state.
    - rewrite <- Ed in *.
      destruct (read_section_block st0 default_section (_defaults S))
        as (st1 & Hr & Hj & He & Has & Hao & Hdef1); auto.
      + discriminate.
      + exists st1. split; [exact Hr|]. split; [|split; [|split]].
        * rewrite Hj. unfold st0. cbn [parser].
          now rewrite join_as_read_state, Ed.
        * now rewrite He.
        * intros m Hm. split; [now rewrite Has|].
          intros k. now rewrite Hao.
        * exact Hdef1. }
  unfold store_lines. rewrite read_lines_app, Hr1. cbn [bind].
  destruct (read_sections_blocks (_sections S) st1 ND Hs)
    as (st2 & Hr2 & Hj2 & He2); auto.
  { intros n Hn. apply Hf1. intros ->.
    rewrite Forall_forall in Hs. unfold od_keys in Hn.
    apply in_map_iff in Hn as ([n' d'] & En & Hin). cbn in En. subst.
    destruct (Hs _ Hin) as [Hvn _].
    now apply valid_name_spec in Hvn as (_ & _ & Hvn). }
  rewrite Hr2. cbn [bind]. rewrite He2, He1.
  unfold merge_into. now rewrite Hj2, Hj1.
Qed.

Lemma od_update_same (d l : odict str) :
  (forall k v, In (k, v) l -> od_get k d = Some v) -> od_update d l = d.
Proof.
  unfold od_update. induction l as [|[k v] l IH]; intros H; cbn; auto.
  rewrite od_set_same_value by (apply H; now left).
  apply IH. intros k' v' Hin. apply H. now right.
Qed.

Lemma od_update_self (d : odict str) :
  NoDup (od_keys d) -> od_update d d = d.
Proof.
  intros ND. apply od_update_same. intros k v Hin.
  now apply od_get_NoDup_In.
Qed.

Lemma valid_store_no_DEFAULT (S : Config) :
  valid_store S = true -> has_section S default_section = false.
Proof.
  intros HS. apply valid_store_spec in HS as (_ & _ & Hs).
  unfold has_section. destruct (od_mem _ _) eqn:E; auto.
  apply od_mem_In in E. unfold od_keys in E.
  apply in_map_iff in E as ([n d] & En & Hin). cbn in En. subst.
  rewrite Forall_forall in Hs. destruct (Hs _ Hin) as [Hvn _].
  apply valid_name_spec in Hvn as (_ & _ & Hvn). cbn in Hvn. congruence.
Qed.

Lemma merge_sections_fresh (secs : odict (odict str)) :
  forall (D : odict str) (acc : odict (odict str)),
  NoDup (od_keys (acc ++ secs)) ->
  Forall (fun s => valid_name (fst s) = true /\ valid_dict (snd s) = true)
    secs ->
  fold_left (fun c s => store_section c (fst s) (snd s)) secs
    (mkConfig D acc)
  = mkConfig D (acc ++ secs).
Proof.
  induction secs as [|[n d] secs IH]; intros D acc ND Hv; cbn [fold_left].
  - now rewrite app_nil_r.
  - inversion Hv as [|? ? [Hvn Hvd] Hv']; subst. cbn [fst snd] in *.
    apply valid_name_spec in Hvn as (_ & _ & Hnd).
    apply valid_dict_spec in Hvd as [NDd _].
    assert (od_get n acc = None) as Habs.
    { apply od_get_None. intros Hin. unfold od_keys in ND.
      rewrite map_app in ND. cbn in ND.
      apply NoDup_remove_2 in ND. apply ND. apply in_or_app. now left. }
    unfold store_section at 2. unfold has_section, od_mem.
    cbn [_sections _defaults]. rewrite Habs.
    destruct (str_eq_dec n default_section); [congruence|].
    rewrite (od_update_fresh d []) by exact NDd. cbn [app].
    rewrite (od_set_absent _ _ _ Habs).
    rewrite IH; auto; now rewrite <- app_assoc.
Qed.

Lemma merge_into_empty (S : Config) :
  valid_store S = true -> merge_into ConfigParser.empty S = S.
Proof.
  intros HS. apply valid_store_spec in HS as (Hd & ND & Hs).
  apply valid_dict_spec in Hd as [NDd _].
  unfold merge_into.
  assert (match _defaults S with
          | [] => ConfigParser.empty
          | _ => store_section ConfigParser.empty default_section
                   (_defaults S)
          end = mkConfig (_defaults S) []) as ->.
  { destruct (_defaults S) eqn:E; [reflexivity|]. rewrite <- E in *.
    unfold store_section. cbn.
    now rewrite (od_update_fresh (_defaults S) []) by exact NDd. }
  rewrite merge_sections_fresh; auto. now destruct S.
Qed.

Lemma merge_sections_same (l : odict (odict str)) :
  forall (c : Config),
  (forall n d, In (n, d) l ->
     od_get n (_sections c) = Some d /\ NoDup (od_keys d)) ->
  fold_left (fun c s => store_section c (fst s) (snd s)) l c = c.
Proof.
  induction l as [|[n d] l IH]; intros c H; cbn [fold_left]; auto.
  destruct (H n d (or_introl eq_refl)) as [Hg NDd]. cbn [fst snd].
  assert (store_section c n d = c) as ->.
  { unfold store_section, has_section, od_mem, section_or_empty.
    rewrite Hg. rewrite od_update_self by exact NDd.
    rewrite od_set_same_value by exact Hg. now destruct c. }
  apply IH. intros n' d' Hin. apply H. now right.
Qed.

Lemma merge_into_self (S : Config) :
  valid_store S = true -> merge_into S S = S.
Proof.
  intros HS. pose proof (valid_store_no_DEFAULT S HS) as Hno.
  apply valid_store_spec in HS as (Hd & ND & Hs).
  apply valid_dict_spec in Hd as [NDd _].
  unfold merge_into.
  assert (match _defaults S with
          | [] => S
          | _ => store_section S default_section (_defaults S)
          end = S) as ->.
  { destruct (_defaults S) eqn:E; [reflexivity|]. rewrite <- E in *.
    unfold store_section. rewrite Hno.
    destruct (str_eq_dec default_section default_section); [|congruence].
    rewrite od_update_self by exact NDd. now destruct S. }
  apply merge_sections_same. intros n d Hin. split.
  - now apply od_get_NoDup_In.
  - rewrite Forall_forall in Hs. destruct (Hs _ Hin) as [_ Hvd].
    now apply valid_dict_spec in Hvd.
Qed.

(** X1.  Round trip of [write] and [load]: the file written from a valid
    store loads, into a new parser and into a parser that holds the store
    already, as that store: same sections in the same order, same options
    in the same order, same values. *)
Theorem load_written_store (S : Config) (bak : option str) :
  valid_store S = true ->
  load ConfigParser.empty (mkFiles (Some (write S)) bak) = Returned S
  /\ load S (mkFiles (Some (write S)) bak) = Returned S.
Proof.
  intros HS. unfold load. cbn [credentials]. split.
  - rewrite read_written_store by (auto; reflexivity).
    now rewrite merge_into_empty.
  - rewrite read_written_store
      by (auto; now apply valid_store_no_DEFAULT).
    now rewrite merge_into_self.
Qed.

Lemma load_written_store_witness :
  let S := mkConfig [(text "region", text "eu-west-1")]
             [(text "default", [(text "aws_access_key_id", text "AKIA1")]);
              (text "work",
               [(text "aws_access_key_id", text "AKIA2");
                (text "note", text "first line" ++ LF :: text "second")])]
  in
  valid_store S = true
  /\ load ConfigParser.empty (mkFiles (Some (write S)) None) = Returned S
  /\ load S (mkFiles (Some (write S)) None) = Returned S.
Proof.
  split; [reflexivity|].
  exact (load_written_store
           (mkConfig [(text "region", text "eu-west-1")]
              [(text "default", [(text "aws_access_key_id", text "AKIA1")]);
               (text "work",
                [(text "aws_access_key_id", text "AKIA2");
                 (text "note", text "first line" ++ LF :: text "second")])])
           None eq_refl).
Defined.

(** X2.  A new manager over the file written from a valid store lists the
    section names of the store other than ["default"], in the order in
    which the file has them. *)
Theorem get_profiles_written_store (S : Config) (bak : option str) :
  valid_store S = true ->
  get_profiles ConfigParser.empty (mkFiles (Some (write S)) bak)
  = Returns (filter (fun sec => negb (str_eqb sec (text "default")))
               (sections S))
      S (mkFiles (Some (write S)) bak).
Proof.
  intros HS. unfold get_profiles.
  destruct (load_written_store S bak HS) as [-> _].
  f_equal. apply filter_ext. intros sec. unfold str_eqb.
  now destruct (str_eq_dec sec (text "default")).
Qed.

Lemma get_profiles_written_store_witness :
  let S := mkConfig []
             [(text "beta", [(text "k", text "1")]);
              (text "default", [(text "k", text "1")]);
              (text "alpha", [])] in
  valid_store S = true
  /\ get_profiles ConfigParser.empty (mkFiles (Some (write S)) None)
     = Returns [text "beta"; text "alpha"] S (mkFiles (Some (write S)) None).
Proof.
  split; [reflexivity|].
  exact (get_profiles_written_store
           (mkConfig []
              [(text "beta", [(text "k", text "1")]);
               (text "default", [(text "k", text "1")]);
               (text "alpha", [])]) None eq_refl).
Defined.
